(** * Async insight jobs of the Facebook Marketing source

    A shallow embedding of
    [source_facebook_marketing/streams/async_job.py]: the [chunks] helper,
    the [Status] enumeration, the leaf job [InsightAsyncJob] and the group
    job [ParentAsyncJob], followed by the properties stated about them.

    Conventions of the embedding.
    - A Python method is a state transformer that returns an [Outcome]
      together with the state it leaves behind: an exception does not roll
      back the assignments made before it was raised.
    - Leaf jobs are objects in a heap, named by a reference; a batch holds
      the references of the jobs whose handlers it will call.
    - Everything beyond the module is a collaborator given by a [Remote]:
      the clock ([pendulum.now]), the report endpoints and the batch
      transport.  Every request is appended to the log of the [World].
    - [logger] is [logging.getLogger("airbyte")].  Python evaluates the
      arguments of [logger.info] before the call.  [Logger.info] hands its
      keyword arguments to [Logger._log] when the level INFO is enabled for
      the logger, and [Logger._log] takes none of the keywords this module
      passes: such a call raises [TypeError] when INFO is enabled and
      returns otherwise.  A call with positional arguments only never
      raises.  Whether INFO is enabled is part of the [Remote]. *)

From stdpp Require Import base gmap strings list pretty functions.

Set Warnings "-register-all".

Open Scope Z_scope.

(** ** Exceptions and outcomes *)

(** The message of an exception raised by the interpreter or a library is
    given as one version of it prints it; the name in front of [()] varies
    with the version, the class of the exception does not. *)
Inductive Exception : Type :=
  | RuntimeError (msg : string)
  | KeyError (key : string)
  | TypeError (msg : string)
  | ValueError (msg : string)
  | AttributeError (msg : string)
  | FacebookRequestError (msg : string)
  | FacebookBadObjectError (msg : string).

(** [Unfinished] stands for a run whose loop budget ran out: the embedding
    of a [while] loop takes a number of rounds it may use. *)
Inductive Outcome (A : Type) : Type :=
  | Returns (a : A)
  | Raises (e : Exception)
  | Unfinished.

Arguments Returns {A} a.
Arguments Raises {A} e.
Arguments Unfinished {A}.

Definition Eff (S A : Type) : Type := S -> Outcome A * S.

Definition ret {S A : Type} (a : A) : Eff S A := fun s => (Returns a, s).

Definition raise {S A : Type} (e : Exception) : Eff S A :=
  fun s => (Raises e, s).

Definition bind {S A B : Type} (m : Eff S A) (k : A -> Eff S B) : Eff S B :=
  fun s =>
    match m s with
    | (Returns a, s') => k a s'
    | (Raises e, s') => (Raises e, s')
    | (Unfinished, s') => (Unfinished, s')
    end.

Definition get {S : Type} : Eff S S := fun s => (Returns s, s).

Definition modify {S : Type} (f : S -> S) : Eff S unit :=
  fun s => (Returns tt, f s).

Notation "'let*' x ':=' m 'in' k" := (bind m (fun x => k))
  (at level 10, x name, m at level 100, k at level 200).

Definition lift_sum {S A : Type} (r : Exception + A) : Eff S A :=
  match r with inl e => raise e | inr a => ret a end.

(** Runs [m] on one component of the state. *)
Definition zoom {S T A : Type} (view : S -> T) (update : T -> S -> S)
    (m : Eff T A) : Eff S A :=
  fun s => let '(r, t') := m (view s) in (r, update t' s).

(** A [for] loop over a list whose body rebinds one local variable. *)
Fixpoint for_each {S A B : Type} (body : A -> B -> Eff S B) (l : list A)
    (acc : B) : Eff S B :=
  match l with
  | [] => ret acc
  | x :: l' => let* acc' := body x acc in for_each body l' acc'
  end.

(** ** Data of the module *)

(** A calendar day (day number) and an instant. *)
Definition Date : Type := Z.
Definition DateTime : Type := Z.

(** [pendulum.Period]: the two ends of the reporting window. *)
Record Period : Type := { p_start : Date; p_end : Date }.

Definition to_date_string (d : Date) : string := pretty d.

(** [pendulum.duration(days=28 + 1)] *)
Definition attribution_window : Z := 28 + 1.

Inductive ParamValue : Type :=
  | PStr (s : string)
  | PInt (n : Z)
  | PList (l : list string)
  | PDict (d : gmap string string).

Abbreviation Params := (gmap string ParamValue).

Inductive EdgeObject : Type :=
  | AdAccount (fbid : string)
  | Campaign (fbid : string).

Definition FacebookAdsApi : Type := string.

(** The fields of an [AdReportRun] the module reads. *)
Record AdReportRun : Type := {
  report_run_id : string;
  async_status : string;
  async_percent_completion : Z
}.

Abbreviation Row := (gmap string string).

(** [class Status(str, Enum)] *)
Inductive Status : Type :=
  | COMPLETED | FAILED | SKIPPED | STARTED | RUNNING | NOT_STARTED.

#[global] Instance Status_eq_dec : EqDecision Status.
Proof. solve_decision. Defined.

Definition Status_value (s : Status) : string :=
  match s with
  | COMPLETED => "Job Completed"
  | FAILED => "Job Failed"
  | SKIPPED => "Job Skipped"
  | STARTED => "Job Started"
  | RUNNING => "Job Running"
  | NOT_STARTED => "Job Not Started"
  end.

(** [job_status == Status.X]: a [str] enumeration member equals its value. *)
Definition status_is (job_status : string) (s : Status) : bool :=
  bool_decide (job_status = Status_value s).

Definition loc : Type := nat.

(** One call stored in a batch: the report run it asks about and the job
    whose [_batch_success_handler] and [_batch_failure_handler] were
    registered with it. *)
Record BatchCall : Type := { call_run : AdReportRun; call_self : loc }.

(** [FacebookAdsApiBatch] *)
Record FacebookAdsApiBatch : Type := {
  batch_api : FacebookAdsApi;
  batch_calls : list BatchCall
}.

(** What the transport hands back for one call of a batch. *)
Inductive BatchReply : Type :=
  | NoReply
  | SuccessReply (body : AdReportRun)
  | FailureReply (body : string).

(** Requests seen by the remote service, oldest first. *)
Inductive Event : Type :=
  | InsightsAsyncRequest (edge : EdgeObject) (params : Params)
  | InsightsRequest (edge : EdgeObject) (params : Params)
  | StatusRequest (run : string)
  | BatchRequest (runs : list string)
  | ResultRequest (run : string) (limit : Z).

Record World : Type := { log : list Event; ticks : nat }.

(** The collaborators.  Each answer may depend on the requests made so far;
    a synchronous request is answered or fails with the message of a
    [FacebookRequestError]; a batched call gets its reply by its position
    in the batch.  [info_enabled] is [logger.isEnabledFor(logging.INFO)]. *)
Record Remote : Type := {
  info_enabled : bool;
  clock : nat -> DateTime;
  insights_async : list Event -> EdgeObject -> Params -> string + AdReportRun;
  insights : list Event -> EdgeObject -> Params -> string + list Row;
  status_fetch : list Event -> AdReportRun -> string + AdReportRun;
  batch_reply : list Event -> nat -> AdReportRun -> BatchReply;
  result_fetch : list Event -> AdReportRun -> Z -> string + list Row
}.

(** ** [chunks] *)

(** The first [count] members of [start, start + step, ...]. *)
Fixpoint range_from (count : nat) (start step : nat) : list nat :=
  match count with
  | O => []
  | S c => start :: range_from c (start + step)%nat step
  end.

(** [range(0, stop, step)] for a length [stop]: a step of zero is refused,
    and a negative step counts down from 0 and so yields nothing. *)
Definition py_range (stop : nat) (step : Z) : Exception + list nat :=
  if decide (step = 0) then inl (ValueError "range() arg 3 must not be zero")
  else if decide (step < 0) then inr []
  else
    let n := Z.to_nat step in
    inr (range_from ((stop + n - 1) / n)%nat 0 n).

(** [data[i : j]] for [0 <= i <= j]. *)
Definition slice {A : Type} (data : list A) (i j : nat) : list A :=
  take (j - i)%nat (drop i data).

(** The generator [chunks(data, n)], consumed to its end: the chunks it
    yields, or the error of [range]. *)
Definition chunks {A : Type} (data : list A) (n : Z)
    : Exception + list (list A) :=
  match py_range (length data) n with
  | inl e => inl e
  | inr starts =>
      inr (map (fun i => slice data i (i + Z.to_nat n)%nat) starts)
  end.

(** ** [InsightAsyncJob] *)

Record InsightAsyncJob : Type := {
  _api : FacebookAdsApi;
  _interval : Period;
  _attempt_number : Z;
  _params : Params;
  _edge_object : EdgeObject;
  _job : option AdReportRun;
  _start_time : option DateTime;
  _finish_time : option DateTime;
  _failed : bool
}.

Definition set_job (v : option AdReportRun) (j : InsightAsyncJob) :=
  {| _api := _api j; _interval := _interval j;
     _attempt_number := _attempt_number j; _params := _params j;
     _edge_object := _edge_object j; _job := v;
     _start_time := _start_time j; _finish_time := _finish_time j;
     _failed := _failed j |}.

Definition set_start_time (v : option DateTime) (j : InsightAsyncJob) :=
  {| _api := _api j; _interval := _interval j;
     _attempt_number := _attempt_number j; _params := _params j;
     _edge_object := _edge_object j; _job := _job j;
     _start_time := v; _finish_time := _finish_time j;
     _failed := _failed j |}.

Definition set_finish_time (v : option DateTime) (j : InsightAsyncJob) :=
  {| _api := _api j; _interval := _interval j;
     _attempt_number := _attempt_number j; _params := _params j;
     _edge_object := _edge_object j; _job := _job j;
     _start_time := _start_time j; _finish_time := v;
     _failed := _failed j |}.

Definition set_failed (v : bool) (j : InsightAsyncJob) :=
  {| _api := _api j; _interval := _interval j;
     _attempt_number := _attempt_number j; _params := _params j;
     _edge_object := _edge_object j; _job := _job j;
     _start_time := _start_time j; _finish_time := _finish_time j;
     _failed := v |}.

Definition set_attempt_number (v : Z) (j : InsightAsyncJob) :=
  {| _api := _api j; _interval := _interval j;
     _attempt_number := v; _params := _params j;
     _edge_object := _edge_object j; _job := _job j;
     _start_time := _start_time j; _finish_time := _finish_time j;
     _failed := _failed j |}.

(** Keyword arguments forwarded to [AsyncJob.__init__(self, api, interval)]:
    the two it knows, and the names of any others, in the order given. *)
Record Kwargs : Type := {
  kw_api : option FacebookAdsApi;
  kw_interval : option Period;
  kw_others : list string
}.

(** [AsyncJob.__init__]: a keyword it does not know is refused first; both
    parameters are required. *)
Definition AsyncJob_init (kwargs : Kwargs)
    : Exception + (FacebookAdsApi * Period * Z) :=
  match kw_others kwargs with
  | name :: _ =>
      inl (TypeError
             ("__init__() got an unexpected keyword argument '"
              +:+ name +:+ "'"))
  | [] =>
      match kw_api kwargs, kw_interval kwargs with
      | Some api, Some interval => inr (api, interval, 1)
      | None, Some _ =>
          inl (TypeError
                 "__init__() missing 1 required positional argument: 'api'")
      | Some _, None =>
          inl (TypeError
                 "__init__() missing 1 required positional argument: 'interval'")
      | None, None =>
          inl (TypeError
                 "__init__() missing 2 required positional arguments: 'api' and 'interval'")
      end
  end.

Definition time_range_of (interval : Period) : ParamValue :=
  PDict {[ "since" := to_date_string (p_start interval);
           "until" := to_date_string (p_end interval) ]}.

(** [InsightAsyncJob.__init__(self, edge_object, params, **kwargs)] *)
Definition InsightAsyncJob_init (edge_object : EdgeObject) (params : Params)
    (kwargs : Kwargs) : Exception + InsightAsyncJob :=
  match AsyncJob_init kwargs with
  | inl e => inl e
  | inr (api, interval, attempt) =>
      inr {| _api := api; _interval := interval; _attempt_number := attempt;
             _params := <["time_range" := time_range_of interval]> params;
             _edge_object := edge_object; _job := None;
             _start_time := None; _finish_time := None; _failed := false |}
  end.

(** The properties [completed] and [failed]. *)
Definition InsightAsyncJob_completed (j : InsightAsyncJob) : bool :=
  bool_decide (_finish_time j <> None).

Definition InsightAsyncJob_failed (j : InsightAsyncJob) : bool := _failed j.

(** Truth value of [self._job]: an [AdReportRun] counts its fields, and a
    report run always carries its id. *)
Definition job_truthy (j : InsightAsyncJob) : bool :=
  match _job j with Some _ => true | None => false end.

Definition show_value (v : ParamValue) : string :=
  match v with
  | PStr s => s
  | PInt n => pretty n
  | PList l => "[" +:+ String.concat ", " l +:+ "]"
  | PDict d =>
      "{" +:+ String.concat ", "
                (map (fun kv => fst kv +:+ ": " +:+ snd kv) (map_to_list d))
          +:+ "}"
  end.

Definition show_edge (e : EdgeObject) : string :=
  match e with
  | AdAccount fbid => "<AdAccount> " +:+ fbid
  | Campaign fbid => "<Campaign> " +:+ fbid
  end.

(** [InsightAsyncJob.__str__]: subscripting [self._params] raises
    [KeyError] on a missing key. *)
Definition InsightAsyncJob_str (j : InsightAsyncJob) : Exception + string :=
  let job_id :=
    match _job j with Some run => report_run_id run | None => "<None>" end in
  match _params j !! "time_range" with
  | None => inl (KeyError "time_range")
  | Some time_range =>
      match _params j !! "breakdowns" with
      | None => inl (KeyError "breakdowns")
      | Some breakdowns =>
          inr ("InsightAsyncJob(id=" +:+ job_id +:+ ", "
               +:+ show_edge (_edge_object j)
               +:+ ", time_range=" +:+ show_value time_range
               +:+ ", breakdowns=" +:+ show_value breakdowns)
      end
  end.

(** [j._params[key]] *)
Definition param_of (j : InsightAsyncJob) (key : string)
    : Exception + ParamValue :=
  match _params j !! key with
  | Some v => inr v
  | None => inl (KeyError key)
  end.

(** What [Logger._log] raises when it is handed the keyword [keyword]. *)
Definition logger_error (keyword : string) : Exception :=
  TypeError ("Logger._log() got an unexpected keyword argument '"
             +:+ keyword +:+ "'").

Section Engine.

Context (remote : Remote).

(** *** Collaborators *)

(** [pendulum.now()] *)
Definition now : Eff World DateTime :=
  fun w => (Returns (clock remote (ticks w)),
            {| log := log w; ticks := S (ticks w) |}).

(** One synchronous request: it is logged, then answered or failed by the
    remote. *)
Definition request {A : Type} (ev : Event)
    (answer : list Event -> string + A) : Eff World A :=
  fun w =>
    let w' := {| log := log w ++ [ev]; ticks := ticks w |} in
    match answer (log w) with
    | inr a => (Returns a, w')
    | inl msg => (Raises (FacebookRequestError msg), w')
    end.

(** [logger.info(msg, keyword=..., ...)], once its arguments are
    evaluated; [keyword] is the first keyword of the call. *)
Definition logger_info_keywords {S : Type} (keyword : string) : Eff S unit :=
  if info_enabled remote then raise (logger_error keyword) else ret tt.

(** *** Methods of a leaf job: the state is [self] and the world *)

Definition JobM (A : Type) : Type := Eff (InsightAsyncJob * World) A.

Definition self_ : JobM InsightAsyncJob := fun s => (Returns (fst s), s).

Definition assign (f : InsightAsyncJob -> InsightAsyncJob) : JobM unit :=
  modify (fun s => (f (fst s), snd s)).

Definition in_world {A : Type} (m : Eff World A) : JobM A :=
  zoom snd (fun w s => (fst s, w)) m.

(** [raise RuntimeError(f"{self}: ...")]: the message is formatted first. *)
Definition usage_error {A : Type} (what : string) : JobM A :=
  let* j := self_ in
  match InsightAsyncJob_str j with
  | inl e => raise e
  | inr s => raise (RuntimeError (s +:+ what))
  end.

(** [self._params[key]] *)
Definition param (key : string) : JobM ParamValue :=
  let* j := self_ in lift_sum (param_of j key).

Definition InsightAsyncJob_start : JobM unit :=
  let* j := self_ in
  if job_truthy j then
    usage_error
      ": Incorrect usage of start - the job already started, use restart instead"
  else
    let* run :=
      in_world (request (InsightsAsyncRequest (_edge_object j) (_params j))
                  (fun h => insights_async remote h (_edge_object j)
                              (_params j))) in
    let* _ := assign (set_job (Some run)) in
    let* t := in_world now in
    let* _ := assign (set_start_time (Some t)) in
    (* logger.info(..., job_id=, time_range=, breakdowns=, obj=) *)
    let* _ := param "time_range" in
    let* _ := param "breakdowns" in
    logger_info_keywords "job_id".

Definition InsightAsyncJob_restart : JobM unit :=
  let* j := self_ in
  if negb (job_truthy j) || negb (InsightAsyncJob_failed j) then
    usage_error
      ": Incorrect usage of restart - only failed jobs can be restarted"
  else
    let* _ := assign (set_job None) in
    let* _ := assign (set_failed false) in
    let* _ := assign (set_start_time None) in
    let* _ := assign (set_finish_time None) in
    let* _ := assign (fun j => set_attempt_number (_attempt_number j + 1) j) in
    InsightAsyncJob_start.

(** The property [elapsed_time]; a [DateTime] is always truthy. *)
Definition InsightAsyncJob_elapsed_time : JobM (option Z) :=
  let* j := self_ in
  match _start_time j with
  | None => ret None
  | Some start_time =>
      let* end_time :=
        match _finish_time j with
        | Some t => ret t
        | None => in_world now
        end in
      ret (Some (end_time - start_time))
  end.

Definition InsightAsyncJob_check_status : JobM bool :=
  let* j := self_ in
  match _job j with
  | None => raise (TypeError "'NoneType' object is not subscriptable")
  | Some run =>
      let job_status := async_status run in
      (* logger.info(..., job=, percent=, status=) *)
      let* _ := logger_info_keywords "job" in
      if status_is job_status COMPLETED then
        let* t := in_world now in
        let* _ := assign (set_finish_time (Some t)) in
        ret true
      else if status_is job_status FAILED || status_is job_status SKIPPED then
        let* t := in_world now in
        let* _ := assign (set_finish_time (Some t)) in
        let* _ := assign (set_failed true) in
        (* logger.info(..., job=, status=, elapsed=) and its argument
           self.elapsed_time.in_seconds() *)
        let* elapsed := InsightAsyncJob_elapsed_time in
        match elapsed with
        | None =>
            raise (AttributeError
                     "'NoneType' object has no attribute 'in_seconds'")
        | Some _ =>
            let* _ := logger_info_keywords "job" in
            ret true
        end
      else ret false
  end.

(** [ObjectParser(reuse_object=self._job).parse_single(response.json())]
    refreshes the report run in place; without an object to reuse the
    parser has no target class. *)
Definition InsightAsyncJob_batch_success_handler (response : AdReportRun)
    : JobM unit :=
  let* j := self_ in
  match _job j with
  | None =>
      raise (FacebookBadObjectError
               "Must specify either target class or reuse object")
  | Some _ =>
      let* _ := assign (set_job (Some response)) in
      let* _ := InsightAsyncJob_check_status in
      ret tt
  end.

Definition InsightAsyncJob_batch_failure_handler (response : string)
    : JobM unit :=
  ret tt.

(** [FacebookAdsApiBatch.add_request] as used by [api_get(batch=...)]. *)
Definition batch_add (batch : FacebookAdsApiBatch) (call : BatchCall)
    : FacebookAdsApiBatch :=
  {| batch_api := batch_api batch;
     batch_calls := batch_calls batch ++ [call] |}.

(** [update_job]; [self] is the reference under which the handlers of this
    job are registered, and the batch handed in is handed back as the call
    leaves it.  On a completed job the call only logs. *)
Definition InsightAsyncJob_update_job (self : loc)
    (batch : option FacebookAdsApiBatch)
    : JobM (option FacebookAdsApiBatch) :=
  let* j := self_ in
  match _job j with
  | None =>
      usage_error ": Incorrect usage of the method - the job is not started"
  | Some run =>
      if InsightAsyncJob_completed j then
        (* logger.info(..., job=, percent=, status=) *)
        let* _ := logger_info_keywords "job" in
        ret batch
      else
        match batch with
        | Some b =>
            ret (Some (batch_add b {| call_run := run; call_self := self |}))
        | None =>
            let* run' :=
              in_world (request (StatusRequest (report_run_id run))
                          (fun h => status_fetch remote h run)) in
            let* _ := assign (set_job (Some run')) in
            let* _ := InsightAsyncJob_check_status in
            ret None
        end
  end.

Definition page_size : Z := 100.

Definition InsightAsyncJob_get_result : JobM (list Row) :=
  let* j := self_ in
  match _job j with
  | Some run =>
      if InsightAsyncJob_failed j then
        usage_error
          ": Incorrect usage of get_result - the job is not started or failed"
      else
        in_world (request (ResultRequest (report_run_id run) page_size)
                    (fun h => result_fetch remote h run page_size))
  | None =>
      usage_error
        ": Incorrect usage of get_result - the job is not started or failed"
  end.

(** *** The heap of leaf jobs *)

Record Program : Type := {
  heap : loc -> InsightAsyncJob;
  next_loc : loc;
  world : World
}.

(** A method call on the leaf job stored at [self]. *)
Definition on {A : Type} (self : loc) (m : JobM A) : Eff Program A :=
  zoom (fun p => (heap p self, world p))
       (fun s p => {| heap := <[self := fst s]> (heap p);
                      next_loc := next_loc p; world := snd s |})
       m.

Definition in_program {A : Type} (m : Eff World A) : Eff Program A :=
  zoom world
       (fun w p => {| heap := heap p; next_loc := next_loc p; world := w |})
       m.

(** A new leaf object. *)
Definition allocate (j : InsightAsyncJob) : Eff Program loc :=
  fun p => (Returns (next_loc p),
            {| heap := <[next_loc p := j]> (heap p);
               next_loc := S (next_loc p); world := world p |}).

(** *** [FacebookAdsApiBatch] *)

(** [api.new_batch()] *)
Definition new_batch (api : FacebookAdsApi) : FacebookAdsApiBatch :=
  {| batch_api := api; batch_calls := [] |}.

(** Truth value of the variable [batch]: [None] is false and a batch counts
    its calls. *)
Definition batch_truthy (batch : option FacebookAdsApiBatch) : bool :=
  match batch with
  | Some b => match batch_calls b with [] => false | _ :: _ => true end
  | None => false
  end.

(** [batch.execute()]: one round trip for all calls; each reply goes to the
    success or the failure handler of its job, and the calls left without a
    reply come back as a new batch.  An empty batch sends nothing. *)
Definition FacebookAdsApiBatch_execute (batch : FacebookAdsApiBatch)
    : Eff Program (option FacebookAdsApiBatch) :=
  match batch_calls batch with
  | [] => ret None
  | calls =>
      let* p := get in
      let history := log (world p) in
      let* _ :=
        in_program
          (request (BatchRequest (map (fun c => report_run_id (call_run c))
                                      calls))
                   (fun _ => inr tt)) in
      let* retry :=
        for_each
          (fun ic retry =>
             match batch_reply remote history (fst ic) (call_run (snd ic)) with
             | NoReply => ret (retry ++ [snd ic])
             | SuccessReply body =>
                 let* _ := on (call_self (snd ic))
                             (InsightAsyncJob_batch_success_handler body) in
                 ret retry
             | FailureReply body =>
                 let* _ := on (call_self (snd ic))
                             (InsightAsyncJob_batch_failure_handler body) in
                 ret retry
             end)
          (combine (seq 0 (length calls)) calls) [] in
      match retry with
      | [] => ret None
      | _ :: _ => ret (Some {| batch_api := batch_api batch;
                               batch_calls := retry |})
      end
  end.

(** [while batch: batch = batch.execute()], with a budget of rounds. *)
Fixpoint while_batch (rounds : nat) (batch : option FacebookAdsApiBatch)
    : Eff Program (option FacebookAdsApiBatch) :=
  match batch with
  | Some b =>
      if batch_truthy batch then
        match rounds with
        | O => fun p => (Unfinished, p)
        | S rounds' =>
            let* batch' := FacebookAdsApiBatch_execute b in
            while_batch rounds' batch'
        end
      else ret batch
  | None => ret batch
  end.

(** ** [AsyncJob] and [ParentAsyncJob] *)

(** A job is a leaf object of the heap or a group.  A group is given by its
    fields and its children in order: no method embedded here writes a
    field of a group. *)
Inductive AsyncJob : Type :=
  | Insight (self : loc)
  | Parent (api : FacebookAdsApi) (interval : Period) (attempt_number : Z)
           (jobs : list AsyncJob).

(** [ParentAsyncJob.__init__(self, jobs, **kwargs)] *)
Definition ParentAsyncJob_init (jobs : list AsyncJob) (kwargs : Kwargs)
    : Exception + AsyncJob :=
  match AsyncJob_init kwargs with
  | inl e => inl e
  | inr (api, interval, attempt) => inr (Parent api interval attempt jobs)
  end.

(** The property [completed]: [all(job.completed for job in self._jobs)]. *)
Fixpoint completed (h : loc -> InsightAsyncJob) (job : AsyncJob) : bool :=
  match job with
  | Insight self => InsightAsyncJob_completed (h self)
  | Parent _ _ _ jobs => forallb (completed h) jobs
  end.

(** The property [failed]: [any(job.failed for job in self._jobs)]. *)
Fixpoint failed (h : loc -> InsightAsyncJob) (job : AsyncJob) : bool :=
  match job with
  | Insight self => InsightAsyncJob_failed (h self)
  | Parent _ _ _ jobs => existsb (failed h) jobs
  end.

(** Reading a property is a step of the program like any other. *)
Definition read_completed (job : AsyncJob) : Eff Program bool :=
  let* p := get in ret (completed (heap p) job).

Definition read_failed (job : AsyncJob) : Eff Program bool :=
  let* p := get in ret (failed (heap p) job).

(** A child together with its bound method [job.update_job]. *)
Definition Bound : Type :=
  AsyncJob
  * (option FacebookAdsApiBatch -> Eff Program (option FacebookAdsApiBatch)).

(** The chunk size of [update_job], [50]. *)
Definition chunk_size : nat := 50.

(** [ParentAsyncJob.update_job(self, batch=None)].  The parameter [batch] is
    rebound at once; the local variable is rebound again by every round of
    the inner [while] loop. *)
Definition ParentAsyncJob_update_job (rounds : nat) (api : FacebookAdsApi)
    (jobs : list Bound) (batch : option FacebookAdsApiBatch)
    : Eff Program unit :=
  let batch := Some (new_batch api) in
  let* p := get in
  let unfinished_jobs :=
    filter (fun job => completed (heap p) (fst job) = false) jobs in
  let* groups := lift_sum (chunks unfinished_jobs (Z.of_nat chunk_size)) in
  let* _ :=
    for_each
      (fun jobs batch =>
         let* batch :=
           for_each (fun job batch => snd job batch) jobs batch in
         while_batch rounds batch)
      groups batch in
  ret tt.

(** [job.update_job(batch=batch)] by the class of [job]. *)
Fixpoint update_job (rounds : nat) (job : AsyncJob)
    : option FacebookAdsApiBatch -> Eff Program (option FacebookAdsApiBatch) :=
  match job with
  | Insight self =>
      fun batch => on self (InsightAsyncJob_update_job self batch)
  | Parent api _ _ jobs =>
      fun batch =>
        let* _ :=
          ParentAsyncJob_update_job rounds api
            (map (fun job => (job, update_job rounds job)) jobs) batch in
        ret batch
  end.

(** [get_result], consumed to its end: the rows produced, and how the
    iteration ended.  On a leaf the call itself produces the cursor. *)
Definition Rows : Type := Program -> (list Row * Outcome unit) * Program.

Definition first_then (m : Rows) (k : Rows) : Rows :=
  fun p =>
    match m p with
    | ((rows, Returns _), p') =>
        let '((rows', o), p'') := k p' in ((rows ++ rows', o), p'')
    | other => other
    end.

Fixpoint get_result (job : AsyncJob) : Rows :=
  match job with
  | Insight self =>
      fun p =>
        match on self InsightAsyncJob_get_result p with
        | (Returns rows, p') => ((rows, Returns tt), p')
        | (Raises e, p') => (([], Raises e), p')
        | (Unfinished, p') => (([], Unfinished), p')
        end
  | Parent _ _ _ jobs =>
      foldr (fun job rest => first_then (get_result job) rest)
            (fun p => (([], Returns tt), p)) jobs
  end.

(** [ParentAsyncJob.split_job] *)
Definition ParentAsyncJob_split_job : Eff Program AsyncJob :=
  raise (RuntimeError "Splitting of ParentAsyncJob is not allowed.").

(** *** [InsightAsyncJob.split_job] *)

(** [InsightAsyncJob(...)]: a new object, initialised. *)
Definition InsightAsyncJob_new (edge_object : EdgeObject) (params : Params)
    (kwargs : Kwargs) : Eff Program AsyncJob :=
  match InsightAsyncJob_init edge_object params kwargs with
  | inl e => raise e
  | inr j => let* self := allocate j in ret (Insight self)
  end.

(** The parameters of the campaign query, lines 177 to 182. *)
Definition campaign_params_of (j : InsightAsyncJob) : Exception + Params :=
  let new_start := p_start (_interval j) - attribution_window in
  let campaign_params :=
    <["level" := PStr "campaign"]>
      (<["fields" := PList ["campaign_id"]]> (_params j)) in
  match campaign_params !! "time_range" with
  | None => inl (KeyError "time_range")
  | Some (PDict time_range) =>
      let campaign_params :=
        <["time_range" :=
            PDict (<["since" := to_date_string new_start]> time_range)]>
          campaign_params in
      match campaign_params !! "time_increment" with
      | None => inl (KeyError "time_increment")
      | Some _ => inr (delete "time_increment" campaign_params)
      end
  | Some _ => inl (AttributeError "object has no attribute 'update'")
  end.

(** [set(row["campaign_id"] for row in result)] *)
Fixpoint campaign_ids_of (result : list Row) : Exception + gset string :=
  match result with
  | [] => inr ∅
  | row :: result' =>
      match row !! "campaign_id" with
      | None => inl (KeyError "campaign_id")
      | Some pk =>
          match campaign_ids_of result' with
          | inl e => inl e
          | inr ids => inr ({[ pk ]} ∪ ids)
          end
      end
  end.

Definition InsightAsyncJob_split_job (self : loc) : Eff Program AsyncJob :=
  let* p := get in
  let j := heap p self in
  let* campaign_params := lift_sum (campaign_params_of j) in
  let* result :=
    in_program
      (request (InsightsRequest (_edge_object j) campaign_params)
         (fun h => insights remote h (_edge_object j) campaign_params)) in
  let* campaign_ids := lift_sum (campaign_ids_of result) in
  (* logger.info(..., num=, period=, campaign_ids=) *)
  let* _ := lift_sum (param_of j "time_range") in
  let* _ := logger_info_keywords "num" in
  let* jobs :=
    for_each
      (fun pk jobs =>
         let* job :=
           InsightAsyncJob_new (Campaign pk) (_params j)
             {| kw_api := Some (_api j); kw_interval := None;
                kw_others := [] |} in
         ret (jobs ++ [job]))
      (elements campaign_ids) [] in
  lift_sum (ParentAsyncJob_init jobs
              {| kw_api := Some (_api j); kw_interval := Some (_interval j);
                 kw_others := [] |}).

(** [job.split_job()] by the class of [job]. *)
Definition split_job (job : AsyncJob) : Eff Program AsyncJob :=
  match job with
  | Insight self => InsightAsyncJob_split_job self
  | Parent _ _ _ _ => ParentAsyncJob_split_job
  end.

(** *** The remaining methods of [AsyncJob] and [ParentAsyncJob] *)

(** The property [key]: [str(self._interval.start.date())]. *)
Definition AsyncJob_key (interval : Period) : string :=
  to_date_string (p_start interval).

Definition InsightAsyncJob_key (j : InsightAsyncJob) : string :=
  AsyncJob_key (_interval j).

Definition key (h : loc -> InsightAsyncJob) (job : AsyncJob) : string :=
  match job with
  | Insight self => InsightAsyncJob_key (h self)
  | Parent _ interval _ _ => AsyncJob_key interval
  end.

(** The property [attempt_number]. *)
Definition attempt_number (h : loc -> InsightAsyncJob) (job : AsyncJob) : Z :=
  match job with
  | Insight self => _attempt_number (h self)
  | Parent _ _ attempt _ => attempt
  end.

(** [job.start()] by the class of [job]; a group starts its children in
    order. *)
Fixpoint start (job : AsyncJob) : Eff Program unit :=
  match job with
  | Insight self => on self InsightAsyncJob_start
  | Parent _ _ _ jobs =>
      for_each (fun start_job (_ : unit) => start_job) (map start jobs) tt
  end.

(** A method that may write the fields of a group hands back the job as it
    leaves it, also when it raises. *)
Definition Restart : Type := Program -> Outcome unit * (AsyncJob * Program).

(** The loop of [ParentAsyncJob.restart] over the children, each with its
    bound method [job.restart]; [attempt] is [self._attempt_number]. *)
Fixpoint ParentAsyncJob_restart (jobs : list (AsyncJob * Restart))
    (attempt : Z) (p : Program)
    : Outcome unit * (list AsyncJob * Z * Program) :=
  match jobs with
  | [] => (Returns tt, ([], attempt, p))
  | job :: jobs' =>
      let '(o, (job', p')) :=
        if failed (heap p) (fst job) then snd job p
        else (Returns tt, (fst job, p)) in
      match o with
      | Returns _ =>
          let '(o', (jobs'', attempt', p'')) :=
            ParentAsyncJob_restart jobs'
              (Z.max attempt (attempt_number (heap p') job')) p' in
          (o', (job' :: jobs'', attempt', p''))
      | _ => (o, (job' :: map fst jobs', attempt, p'))
      end
  end.

(** [job.restart()] by the class of [job]. *)
Fixpoint restart (job : AsyncJob) : Restart :=
  match job with
  | Insight self =>
      fun p =>
        let '(o, p') := on self InsightAsyncJob_restart p in
        (o, (Insight self, p'))
  | Parent api interval attempt jobs =>
      fun p =>
        let '(o, (jobs', attempt', p')) :=
          ParentAsyncJob_restart (map (fun job => (job, restart job)) jobs)
            attempt p in
        (o, (Parent api interval attempt' jobs', p'))
  end.

End Engine.

(** * Properties *)

(** The error the specification calls [InvalidStateError] is the
    [RuntimeError] raised on a misuse of the job. *)
Definition is_invalid_state {A : Type} (o : Outcome A) : Prop :=
  exists msg, o = Raises (RuntimeError msg).

(** The world after one reading of the clock. *)
Definition tick (w : World) : World :=
  {| log := log w; ticks := S (ticks w) |}.

(** The world after one more request. *)
Definition sent (ev : Event) (w : World) : World :=
  {| log := log w ++ [ev]; ticks := ticks w |}.

(** What the fields of a leaf job satisfy between two calls. *)
Definition leaf_invariant (j : InsightAsyncJob) : Prop :=
  (_failed j = true -> _finish_time j <> None)
  /\ (_finish_time j <> None -> _job j <> None)
  /\ (_job j <> None -> _start_time j <> None).

(** Assignments made by [restart] before it calls [start]. *)
Definition restart_fields (j : InsightAsyncJob) : InsightAsyncJob :=
  set_attempt_number (_attempt_number j + 1)
    (set_finish_time None
       (set_start_time None (set_failed false (set_job None j)))).

(** The chunks of [data] for the positive chunk size [n]. *)
Definition chunks_list {A : Type} (data : list A) (n : nat) : list (list A) :=
  map (fun i => slice data i (i + n)%nat)
    (range_from ((length data + n - 1) / n)%nat 0 n).

(** The remote [r] with INFO enabled for the logger. *)
Definition with_info (r : Remote) : Remote :=
  {| info_enabled := true; clock := clock r;
     insights_async := insights_async r; insights := insights r;
     status_fetch := status_fetch r; batch_reply := batch_reply r;
     result_fetch := result_fetch r |}.

Ltac unfold_eff :=
  unfold usage_error, param, logger_info_keywords, lift_sum, in_world, zoom,
    assign, modify, self_, request, now, bind, ret, raise, get in *.

(** ** A concrete remote and concrete jobs *)

Module Demo.

Definition run (n : nat) (status : string) : AdReportRun :=
  {| report_run_id := pretty n; async_status := status;
     async_percent_completion := 0 |}.

(** The report run [r] as the remote shows it in the status [status]. *)
Definition in_status (status : string) (r : AdReportRun) : AdReportRun :=
  {| report_run_id := report_run_id r; async_status := status;
     async_percent_completion := async_percent_completion r |}.

(** A remote that starts every report, answers every batched call with
    [Job Completed] and every immediate status request with
    [Job Running]; INFO is not enabled for the logger. *)
Definition remote : Remote :=
  {| info_enabled := false;
     clock := fun n => 1000 + Z.of_nat n;
     insights_async := fun h _ _ => inr (run (length h) "Job Started");
     insights := fun _ _ _ => inr [];
     status_fetch := fun _ r => inr (in_status "Job Running" r);
     batch_reply := fun _ _ r => SuccessReply (in_status "Job Completed" r);
     result_fetch := fun _ _ _ => inr [] |}.

Definition week : Period := {| p_start := 18628; p_end := 18634 |}.

Definition params : Params :=
  {[ "breakdowns" := PList ["age"]; "time_increment" := PInt 1 ]}.

Definition world0 : World := {| log := []; ticks := 0 |}.

(** A job as its constructor leaves it. *)
Definition fresh_job : InsightAsyncJob :=
  {| _api := "api"; _interval := week; _attempt_number := 1;
     _params := <["time_range" := time_range_of week]> params;
     _edge_object := AdAccount "act_1"; _job := None;
     _start_time := None; _finish_time := None; _failed := false |}.

(** The [n]-th job, started and not yet observed in a final status. *)
Definition running_job (n : nat) : InsightAsyncJob :=
  set_start_time (Some 900) (set_job (Some (run n "Job Running")) fresh_job).

Definition failed_job : InsightAsyncJob :=
  set_failed true
    (set_finish_time (Some 950)
       (set_job (Some (run 7 "Job Failed")) (running_job 7))).

(** A job whose parameters carry no breakdowns. *)
Definition bare_job : InsightAsyncJob :=
  {| _api := "api"; _interval := week; _attempt_number := 1;
     _params := {[ "time_range" := time_range_of week ]};
     _edge_object := AdAccount "act_1"; _job := None;
     _start_time := None; _finish_time := None; _failed := false |}.

Definition bare_started_job : InsightAsyncJob :=
  set_start_time (Some 900) (set_job (Some (run 1 "Job Started")) bare_job).

(** The job [bare_job] once started with the report run [n] at the
    instant [t]. *)
Definition bare_started_job_at (n : nat) (t : DateTime) : InsightAsyncJob :=
  set_start_time (Some t) (set_job (Some (run n "Job Started")) bare_job).

End Demo.

(** A leaf job of [Demo] and a remote whose campaign query finds
    campaigns. *)
Module DemoSplit.

(** A remote whose campaign query lists the campaigns A, B and C. *)
Definition remote : Remote :=
  {| info_enabled := false;
     clock := clock Demo.remote;
     insights_async := insights_async Demo.remote;
     insights := fun _ _ _ =>
       inr [ {[ "campaign_id" := "A" ]}; {[ "campaign_id" := "B" ]};
             {[ "campaign_id" := "C" ]}; {[ "campaign_id" := "A" ]} ];
     status_fetch := status_fetch Demo.remote;
     batch_reply := batch_reply Demo.remote;
     result_fetch := result_fetch Demo.remote |}.

Definition program : Program :=
  {| heap := Demo.running_job; next_loc := 51%nat; world := Demo.world0 |}.

End DemoSplit.

(** The status check of one running job enqueued twice into one batch,
    with a transport that answers the first call with [Job Failed] and the
    second with [Job Completed]. *)
Module DemoTwice.

Definition remote : Remote :=
  {| info_enabled := false;
     clock := clock Demo.remote;
     insights_async := insights_async Demo.remote;
     insights := insights Demo.remote;
     status_fetch := status_fetch Demo.remote;
     batch_reply := fun _ i r =>
       SuccessReply
         (Demo.in_status
            (if Nat.eqb i 0 then "Job Failed" else "Job Completed") r);
     result_fetch := result_fetch Demo.remote |}.

Definition program : Program :=
  {| heap := Demo.running_job; next_loc := 51%nat; world := Demo.world0 |}.

Definition final : Outcome (option FacebookAdsApiBatch) * Program :=
  (let* batch :=
     on 3%nat (InsightAsyncJob_update_job remote 3%nat
                 (Some (new_batch "api"))) in
   let* batch := on 3%nat (InsightAsyncJob_update_job remote 3%nat batch) in
   match batch with
   | Some b => FacebookAdsApiBatch_execute remote b
   | None => ret None
   end) program.

End DemoTwice.

(** A group of 51 running jobs. *)
Module Demo51.

Definition children : list AsyncJob := map Insight (seq 0 51).

Definition group : AsyncJob := Parent "api" Demo.week 1 children.

Definition program : Program :=
  {| heap := Demo.running_job; next_loc := 51%nat; world := Demo.world0 |}.

Definition final : Outcome (option FacebookAdsApiBatch) * Program :=
  update_job Demo.remote 1 group None program.

End Demo51.

(** A group of 120 running jobs and a transport that asks for retries. *)
Module Demo120.

Definition is_batch_request (ev : Event) : bool :=
  match ev with BatchRequest _ => true | _ => false end.

Definition is_status_request (ev : Event) : bool :=
  match ev with StatusRequest _ => true | _ => false end.

Definition batch_size (ev : Event) : nat :=
  match ev with BatchRequest runs => length runs | _ => 0 end.

(** A transport that, in its first two round trips, leaves every second
    call of a batch without a reply; every reply and every immediate
    status request says [Job Completed]. *)
Definition remote : Remote :=
  {| info_enabled := false;
     clock := clock Demo.remote;
     insights_async := insights_async Demo.remote;
     insights := insights Demo.remote;
     status_fetch := fun _ r => inr (Demo.in_status "Job Completed" r);
     batch_reply := fun h i r =>
       if bool_decide (length (filter (fun ev => is_batch_request ev = true) h)
                       < 2)%nat
          && Nat.odd i
       then NoReply
       else SuccessReply (Demo.in_status "Job Completed" r);
     result_fetch := result_fetch Demo.remote |}.

Definition group : AsyncJob :=
  Parent "api" Demo.week 1 (map Insight (seq 0 120)).

Definition program : Program :=
  {| heap := Demo.running_job; next_loc := 120%nat; world := Demo.world0 |}.

Definition final : Outcome (option FacebookAdsApiBatch) * Program :=
  update_job remote 3 group None program.

End Demo120.

(** ** Notions used by the further properties *)

(** [m] relates the job it finds to the job it leaves by [R]. *)
Definition keeps {A : Type} (R : InsightAsyncJob -> InsightAsyncJob -> Prop)
    (m : Eff (InsightAsyncJob * World) A) : Prop :=
  forall j w, R j (fst (snd (m (j, w)))).

(** The fields no method assigns after the constructor: they fix what the
    job asks the remote for, and its key. *)
Definition same_request (j j' : InsightAsyncJob) : Prop :=
  _api j' = _api j /\ _interval j' = _interval j
  /\ _params j' = _params j /\ _edge_object j' = _edge_object j.

(** The same, with the attempt number. *)
Definition same_attempt (j j' : InsightAsyncJob) : Prop :=
  same_request j j' /\ _attempt_number j' = _attempt_number j.

(** The attempt number is kept or grows by one. *)
Definition next_attempt (j j' : InsightAsyncJob) : Prop :=
  same_request j j'
  /\ (_attempt_number j' = _attempt_number j
      \/ _attempt_number j' = _attempt_number j + 1).

(** A status after which the remote job will not change, and a status that
    counts as a failure. *)
Definition is_failure (job_status : string) : bool :=
  status_is job_status FAILED || status_is job_status SKIPPED.

Definition is_terminal (job_status : string) : bool :=
  status_is job_status COMPLETED || is_failure job_status.

(** The invariant of the class, with the attempt number. *)
Definition leaf_ok (j : InsightAsyncJob) : Prop :=
  leaf_invariant j /\ 1 <= _attempt_number j.

(** A request made by executing a batch. *)
Definition batch_request_event (ev : Event) : Prop :=
  exists runs, ev = BatchRequest runs.

Definition is_no_reply (r : BatchReply) : bool :=
  match r with NoReply => true | _ => false end.

Definition is_success_reply (r : BatchReply) : bool :=
  match r with SuccessReply _ => true | _ => false end.

(** The calls of a batch with their positions. *)
Definition indexed_calls (calls : list BatchCall) : list (nat * BatchCall) :=
  combine (seq 0 (length calls)) calls.

(** The calls the transport left without a reply, in order, and the jobs
    for which it gave a success reply. *)
Definition unanswered (remote : Remote) (history : list Event)
    (ics : list (nat * BatchCall)) : list BatchCall :=
  map snd
    (filter (fun ic => is_no_reply
                         (batch_reply remote history (fst ic)
                            (call_run (snd ic))) = true) ics).

Definition answered (remote : Remote) (history : list Event)
    (ics : list (nat * BatchCall)) : list loc :=
  map (fun ic => call_self (snd ic))
    (filter (fun ic => is_success_reply
                         (batch_reply remote history (fst ic)
                            (call_run (snd ic))) = true) ics).

(** The jobs whose handlers a batch holds. *)
Definition owners (batch : option FacebookAdsApiBatch) : list loc :=
  match batch with
  | Some b => map call_self (batch_calls b)
  | None => []
  end.

(** What [execute] does with the reply to one call. *)
Definition reply_step (remote : Remote) (history : list Event)
    (ic : nat * BatchCall) (retry : list BatchCall)
    : Eff Program (list BatchCall) :=
  match batch_reply remote history (fst ic) (call_run (snd ic)) with
  | NoReply => ret (retry ++ [snd ic])
  | SuccessReply body =>
      let* _ := on (call_self (snd ic))
                  (InsightAsyncJob_batch_success_handler remote body) in
      ret retry
  | FailureReply body =>
      let* _ := on (call_self (snd ic))
                  (InsightAsyncJob_batch_failure_handler body) in
      ret retry
  end.

(** The request sent by executing a batch with the given calls. *)
Definition batch_request_of (calls : list BatchCall) : Event :=
  BatchRequest (map (fun c => report_run_id (call_run c)) calls).

(** What [execute] returns when every handler returns. *)
Definition retry_batch (remote : Remote) (history : list Event)
    (batch : FacebookAdsApiBatch) : option FacebookAdsApiBatch :=
  match unanswered remote history (indexed_calls (batch_calls batch)) with
  | [] => None
  | retry => Some {| batch_api := batch_api batch; batch_calls := retry |}
  end.

(** The children of a group of leaf jobs with their bound [update_job]. *)
Definition bound_leaves (remote : Remote) (rounds : nat) (ls : list loc)
    : list Bound :=
  map (fun l => (Insight l, update_job remote rounds (Insight l))) ls.

(** The leaf jobs among [ls] that are not completed in the heap [h]. *)
Definition unfinished_leaves (h : loc -> InsightAsyncJob) (ls : list loc)
    : list loc :=
  filter (fun l => InsightAsyncJob_completed (h l) = false) ls.

(** Rows that end at once, without a row. *)
Definition no_rows : Rows := fun p => (([], Returns tt), p).

(** The request [start] sends for the leaf job [j]. *)
Definition start_request (j : InsightAsyncJob) : Event :=
  InsightsAsyncRequest (_edge_object j) (_params j).

(** The children of a group of leaf jobs with their bound [restart]. *)
Definition restart_leaves (remote : Remote) (ls : list loc)
    : list (AsyncJob * Restart) :=
  map (fun l => (Insight l, restart remote (Insight l))) ls.

(** A heap with the failed job of [Demo] at reference 7 and running jobs
    elsewhere. *)
Definition demo_heap_failed_at_7 (l : loc) : InsightAsyncJob :=
  if Nat.eqb l 7 then Demo.failed_job else Demo.running_job l.

Definition demo_program_failed_at_7 : Program :=
  {| heap := demo_heap_failed_at_7; next_loc := 8%nat;
     world := Demo.world0 |}.

(** ** The leaf job *)

Lemma fresh_job_is_constructed :
  InsightAsyncJob_init (AdAccount "act_1") Demo.params
    {| kw_api := Some "api"; kw_interval := Some Demo.week;
       kw_others := [] |}
  = inr Demo.fresh_job.
Proof. reflexivity. Qed.

Lemma status_values_distinct (s1 s2 : Status) :
  Status_value s1 = Status_value s2 -> s1 = s2.
Proof. destruct s1, s2; simpl; intros H; first [reflexivity | discriminate H]. Qed.

Ltac solve_invariant :=
  unfold leaf_invariant in *; simpl in *; intuition congruence.

(** The constructor establishes the invariant. *)
Lemma init_invariant edge_object params kwargs j :
  InsightAsyncJob_init edge_object params kwargs = inr j -> leaf_invariant j.
Proof.
  unfold InsightAsyncJob_init. destruct (AsyncJob_init kwargs) as [e|[[a i] n]].
  - discriminate.
  - intros [= <-]. solve_invariant.
Qed.

Lemma check_status_invariant remote j w :
  leaf_invariant j ->
  leaf_invariant (fst (snd (InsightAsyncJob_check_status remote (j, w)))).
Proof.
  intros Hinv. unfold InsightAsyncJob_check_status.
  unfold_eff. simpl.
  destruct (_job j) as [run|] eqn:Hjob; simpl; [|exact Hinv].
  destruct (info_enabled remote) eqn:Hinfo; simpl; [exact Hinv|].
  destruct (status_is (async_status run) COMPLETED); simpl.
  { solve_invariant. }
  destruct (status_is (async_status run) FAILED
            || status_is (async_status run) SKIPPED); simpl; [|exact Hinv].
  unfold InsightAsyncJob_elapsed_time. unfold_eff. simpl.
  destruct (_start_time j) eqn:Hst; simpl; rewrite ?Hinfo; solve_invariant.
Qed.

Lemma start_invariant remote j w :
  leaf_invariant j ->
  leaf_invariant (fst (snd (InsightAsyncJob_start remote (j, w)))).
Proof.
  intros Hinv. unfold InsightAsyncJob_start. unfold_eff. simpl.
  unfold job_truthy. destruct (_job j) as [run|] eqn:Hjob; simpl.
  - destruct (InsightAsyncJob_str j); simpl; exact Hinv.
  - destruct (insights_async remote _ _ _) as [msg|run]; simpl.
    + exact Hinv.
    + unfold param_of; simpl.
      destruct (_params j !! "time_range"); simpl;
        [destruct (_params j !! "breakdowns"); simpl;
         [destruct (info_enabled remote); simpl|]|]; solve_invariant.
Qed.

Lemma restart_invariant remote j w :
  leaf_invariant j ->
  leaf_invariant (fst (snd (InsightAsyncJob_restart remote (j, w)))).
Proof.
  intros Hinv. unfold InsightAsyncJob_restart.
  unfold bind at 1. unfold self_ at 1. simpl.
  destruct (negb (job_truthy j) || negb (InsightAsyncJob_failed j)).
  - unfold_eff. simpl. destruct (InsightAsyncJob_str j); simpl; exact Hinv.
  - unfold bind, assign, modify. simpl.
    apply start_invariant. solve_invariant.
Qed.

Lemma update_job_invariant remote self batch j w :
  leaf_invariant j ->
  leaf_invariant
    (fst (snd (InsightAsyncJob_update_job remote self batch (j, w)))).
Proof.
  intros Hinv. unfold InsightAsyncJob_update_job.
  unfold bind at 1. unfold self_ at 1. simpl.
  destruct (_job j) as [run|] eqn:Hjob.
  - destruct (InsightAsyncJob_completed j) eqn:Hc.
    { unfold_eff. destruct (info_enabled remote); exact Hinv. }
    destruct batch as [b|]; [exact Hinv|].
    unfold bind at 1. unfold in_world, zoom, request. simpl.
    destruct (status_fetch remote (log w) run) as [msg|run']; simpl;
      [exact Hinv|].
    unfold bind at 1. unfold assign at 1, modify. simpl.
    unfold bind.
    match goal with
    | |- context [InsightAsyncJob_check_status remote ?s] =>
        pose proof (check_status_invariant remote (fst s) (snd s)) as H;
        simpl in H; destruct (InsightAsyncJob_check_status remote s)
          as [[b|e|] [j' w']]; simpl in *; apply H
    end; solve_invariant.
  - unfold_eff. simpl. destruct (InsightAsyncJob_str j); simpl; exact Hinv.
Qed.

Lemma batch_success_handler_invariant remote response j w :
  leaf_invariant j ->
  leaf_invariant
    (fst (snd (InsightAsyncJob_batch_success_handler remote response (j, w)))).
Proof.
  intros Hinv. unfold InsightAsyncJob_batch_success_handler.
  unfold bind at 1. unfold self_ at 1. simpl.
  destruct (_job j) as [run|] eqn:Hjob; [|exact Hinv].
  unfold bind at 1. unfold assign at 1, modify. simpl. unfold bind.
  match goal with
  | |- context [InsightAsyncJob_check_status remote ?s] =>
      pose proof (check_status_invariant remote (fst s) (snd s)) as H;
      simpl in H; destruct (InsightAsyncJob_check_status remote s)
        as [[b|e|] [j' w']]; simpl in *; apply H
  end; solve_invariant.
Qed.

(** With INFO enabled for the logger, [_check_status] on a started job
    raises at its first [logger.info] call, before any assignment. *)
Lemma check_status_info_enabled remote j w run :
  info_enabled remote = true ->
  _job j = Some run ->
  InsightAsyncJob_check_status remote (j, w)
  = (Raises (logger_error "job"), (j, w)).
Proof.
  intros Hinfo Hjob. unfold InsightAsyncJob_check_status. unfold_eff. simpl.
  rewrite Hjob, Hinfo. reflexivity.
Qed.




(** The scenario of the specification: a first immediate status check
    answers [Job Running] and leaves the job uncompleted; a later batched
    check answers [Job Completed]. *)
Example running_then_completed :
  let s1 := snd (InsightAsyncJob_update_job Demo.remote 0%nat None
                   (Demo.running_job 3, Demo.world0)) in
  let s2 := snd (InsightAsyncJob_batch_success_handler Demo.remote
                   (Demo.run 3 "Job Completed") s1) in
  InsightAsyncJob_completed (fst s1) = false
  /\ InsightAsyncJob_completed (fst s2) = true
  /\ _finish_time (fst s2) = Some 1000
  /\ InsightAsyncJob_failed (fst s2) = false.
Proof. vm_compute. repeat split. Qed.

(** C4: [update_job] on a completed leaf job, with or without a batch,
    sends nothing, reads no clock, leaves every field of the job as it was
    and registers nothing in the batch.  On a started job the call returns
    when INFO is not enabled for the logger, and raises the error of its
    [logger.info] call when it is. *)
Theorem C4_update_job_completed_is_noop remote self batch j w :
  InsightAsyncJob_completed j = true ->
  let result := InsightAsyncJob_update_job remote self batch (j, w) in
  snd result = (j, w)
  /\ (forall batch', fst result = Returns batch' -> batch' = batch)
  /\ (_job j <> None ->
      fst result = if info_enabled remote then Raises (logger_error "job")
                   else Returns batch).
Proof.
  intros Hc result. subst result. unfold InsightAsyncJob_update_job.
  unfold_eff. simpl.
  destruct (_job j) as [run|] eqn:Hjob.
  - rewrite Hc. destruct (info_enabled remote); simpl; repeat split;
      congruence.
  - simpl. destruct (InsightAsyncJob_str j) eqn:Hstr; simpl;
      (split; [reflexivity | split; [discriminate | congruence]]).
Qed.

Lemma C4_update_job_completed_is_noop_witness :
  snd (InsightAsyncJob_update_job Demo.remote 7%nat None
         (Demo.failed_job, Demo.world0))
  = (Demo.failed_job, Demo.world0).
Proof.
  exact (proj1 (C4_update_job_completed_is_noop Demo.remote 7%nat None
                  Demo.failed_job Demo.world0 eq_refl)).
Defined.

(** C5: [restart] on a started and failed leaf job clears the report run,
    the start time and the finish time, sets [_failed] to false, adds
    exactly one to the attempt number, and then runs [start] on the job so
    reset: the report is submitted again. *)
Theorem C5_restart_resets_and_starts remote j w :
  job_truthy j = true ->
  InsightAsyncJob_failed j = true ->
  let j0 := restart_fields j in
  let result := InsightAsyncJob_restart remote (j, w) in
  let j' := fst (snd result) in
  (_job j0 = None /\ _start_time j0 = None /\ _finish_time j0 = None
   /\ _failed j0 = false /\ _attempt_number j0 = _attempt_number j + 1)
  /\ result = InsightAsyncJob_start remote (j0, w)
  /\ log (snd (snd result))
     = log w ++ [InsightsAsyncRequest (_edge_object j) (_params j)]
  /\ _failed j' = false
  /\ _finish_time j' = None
  /\ _attempt_number j' = _attempt_number j + 1
  /\ (forall run,
        insights_async remote (log w) (_edge_object j) (_params j) = inr run ->
        _job j' = Some run /\ _start_time j' = Some (clock remote (ticks w))).
Proof.
  intros Ht Hf j0 result j'.
  assert (Hres : result = InsightAsyncJob_start remote (j0, w)).
  { subst result j0. unfold InsightAsyncJob_restart.
    unfold bind at 1. unfold self_ at 1. simpl. rewrite Ht, Hf. simpl.
    reflexivity. }
  split; [repeat split|]. split; [exact Hres|].
  subst j'. rewrite Hres. clear Hres result.
  unfold InsightAsyncJob_start. unfold_eff. simpl.
  destruct (insights_async remote (log w) (_edge_object j) (_params j))
    as [msg|run] eqn:Hsub; simpl.
  - repeat split; congruence.
  - unfold param_of. simpl.
    destruct (_params j !! "time_range"); simpl;
      [destruct (_params j !! "breakdowns"); simpl;
       [destruct (info_enabled remote); simpl|]|];
      repeat split; congruence.
Qed.

Lemma C5_restart_resets_and_starts_witness :
  let j' := fst (snd (InsightAsyncJob_restart Demo.remote
                        (Demo.failed_job, Demo.world0))) in
  _failed j' = false /\ _finish_time j' = None /\ _attempt_number j' = 2.
Proof.
  pose proof (C5_restart_resets_and_starts Demo.remote Demo.failed_job
                Demo.world0 eq_refl eq_refl) as (_ & _ & _ & H1 & H2 & H3 & _).
  exact (conj H1 (conj H2 H3)).
Defined.

Lemma usage_error_printable {A : Type} what j w s :
  InsightAsyncJob_str j = inr s ->
  usage_error (A := A) what (j, w) = (Raises (RuntimeError (s +:+ what)), (j, w)).
Proof. intros Hs. unfold_eff. simpl. rewrite Hs. reflexivity. Qed.

(** C6, as amended: for a leaf job whose parameters carry [time_range] and
    [breakdowns], so that the job can be printed into the message,
    [restart] on a job that is not failed and [start] on a job that is
    already started raise the usage [RuntimeError] and change neither the
    job nor the world. *)
Theorem C6_misuse_raises_invalid_state remote j w s :
  InsightAsyncJob_str j = inr s ->
  (InsightAsyncJob_failed j = false ->
     InsightAsyncJob_restart remote (j, w)
     = (Raises
          (RuntimeError
             (s +:+ ": Incorrect usage of restart - only failed jobs can be restarted")),
        (j, w)))
  /\ (job_truthy j = true ->
     InsightAsyncJob_start remote (j, w)
     = (Raises
          (RuntimeError
             (s +:+ ": Incorrect usage of start - the job already started, use restart instead")),
        (j, w))).
Proof.
  intros Hs. split.
  - intros Hf. unfold InsightAsyncJob_restart.
    unfold bind at 1. unfold self_ at 1. simpl.
    rewrite Hf, orb_true_r. apply usage_error_printable. exact Hs.
  - intros Ht. unfold InsightAsyncJob_start.
    unfold bind at 1. unfold self_ at 1. simpl.
    rewrite Ht. apply usage_error_printable. exact Hs.
Qed.

Lemma C6_misuse_raises_invalid_state_witness :
  is_invalid_state
    (fst (InsightAsyncJob_start Demo.remote (Demo.running_job 3, Demo.world0)))
  /\ snd (InsightAsyncJob_start Demo.remote (Demo.running_job 3, Demo.world0))
     = (Demo.running_job 3, Demo.world0).
Proof.
  destruct (C6_misuse_raises_invalid_state Demo.remote (Demo.running_job 3)
              Demo.world0 _ eq_refl) as [_ H].
  rewrite (H eq_refl). split; [eexists; reflexivity | reflexivity].
Defined.

(** C6 as stated fails: a started job whose parameters carry no
    [breakdowns] is a leaf job, and [start] on it raises the [KeyError] of
    [__str__] in place of the usage error. *)
Lemma C6_counterexample :
  job_truthy Demo.bare_started_job = true
  /\ fst (InsightAsyncJob_start Demo.remote
            (Demo.bare_started_job, Demo.world0))
     = Raises (KeyError "breakdowns")
  /\ ~ is_invalid_state
         (fst (InsightAsyncJob_start Demo.remote
                 (Demo.bare_started_job, Demo.world0))).
Proof.
  split; [reflexivity|]. split; [reflexivity|].
  intros [msg H]. vm_compute in H. discriminate H.
Qed.

(** C8, as amended: for a leaf job whose parameters carry [time_range] and
    [breakdowns], [get_result] raises the usage [RuntimeError] exactly when
    the job was never started or is failed, and then sends nothing; on a
    started job that is not failed, finished or not, it sends the result
    request with the page size and hands back what the remote answers. *)
Theorem C8_get_result_guard remote j w s :
  InsightAsyncJob_str j = inr s ->
  let result := InsightAsyncJob_get_result remote (j, w) in
  (is_invalid_state (fst result) <-> _job j = None \/ _failed j = true)
  /\ (is_invalid_state (fst result) -> snd result = (j, w))
  /\ (forall run,
        _job j = Some run -> _failed j = false ->
        snd result = (j, sent (ResultRequest (report_run_id run) page_size) w)
        /\ fst result
           = match result_fetch remote (log w) run page_size with
             | inr rows => Returns rows
             | inl msg => Raises (FacebookRequestError msg)
             end).
Proof.
  intros Hs result.
  assert (Heq : result
                = match _job j with
                  | Some run =>
                      if _failed j then
                        usage_error
                          ": Incorrect usage of get_result - the job is not started or failed"
                          (j, w)
                      else
                        in_world
                          (request (ResultRequest (report_run_id run) page_size)
                             (fun h => result_fetch remote h run page_size))
                          (j, w)
                  | None =>
                      usage_error
                        ": Incorrect usage of get_result - the job is not started or failed"
                        (j, w)
                  end).
  { subst result. unfold InsightAsyncJob_get_result.
    unfold bind at 1. unfold self_ at 1. simpl.
    unfold InsightAsyncJob_failed.
    destruct (_job j); [destruct (_failed j)|]; reflexivity. }
  clearbody result. subst result.
  destruct (_job j) as [run|] eqn:Hjob.
  - destruct (_failed j) eqn:Hf.
    + rewrite !(usage_error_printable _ _ _ _ Hs). simpl.
      split; [|split].
      * split; [intros _; right; reflexivity | intros _; eexists; reflexivity].
      * reflexivity.
      * intros run' _ [=].
    + unfold in_world, zoom, request. simpl.
      assert (Hno : forall (o : Outcome (list Row)),
                 o = match result_fetch remote (log w) run page_size with
                     | inr rows => Returns rows
                     | inl msg => Raises (FacebookRequestError msg)
                     end -> ~ is_invalid_state o).
      { intros o -> [msg H].
        destruct (result_fetch remote (log w) run page_size); discriminate H. }
      destruct (result_fetch remote (log w) run page_size) as [msg|rows] eqn:Hr;
        simpl.
      * split; [|split].
        -- split; [intros H; exfalso; exact (Hno _ eq_refl H)
                  | intros [H|H]; discriminate H].
        -- intros H. exfalso. exact (Hno _ eq_refl H).
        -- intros run' [= <-] _. rewrite Hr. split; reflexivity.
      * split; [|split].
        -- split; [intros H; exfalso; exact (Hno _ eq_refl H)
                  | intros [H|H]; discriminate H].
        -- intros H. exfalso. exact (Hno _ eq_refl H).
        -- intros run' [= <-] _. rewrite Hr. split; reflexivity.
  - rewrite !(usage_error_printable _ _ _ _ Hs). simpl.
    split; [|split].
    + split; [intros _; left; reflexivity | intros _; eexists; reflexivity].
    + reflexivity.
    + intros run' [=].
Qed.

Lemma C8_get_result_guard_witness :
  is_invalid_state
    (fst (InsightAsyncJob_get_result Demo.remote
            (Demo.failed_job, Demo.world0))).
Proof.
  destruct (C8_get_result_guard Demo.remote Demo.failed_job Demo.world0 _
              eq_refl) as [H _].
  apply H. right. reflexivity.
Defined.

(** C8 as stated fails: a started job still running is not finished, yet
    [get_result] raises nothing and hands back the rows of the remote; and
    on a job never started whose parameters carry no [breakdowns] the error
    raised is the [KeyError] of [__str__]. *)
Lemma C8_counterexample :
  (InsightAsyncJob_completed (Demo.running_job 3) = false
   /\ InsightAsyncJob_get_result Demo.remote (Demo.running_job 3, Demo.world0)
      = (Returns [],
         (Demo.running_job 3, sent (ResultRequest "3" 100) Demo.world0)))
  /\ (job_truthy Demo.bare_job = false
      /\ fst (InsightAsyncJob_get_result Demo.remote
                (Demo.bare_job, Demo.world0))
         = Raises (KeyError "breakdowns")).
Proof. repeat split. Qed.

(** ** The group job *)

Lemma forallb_true_Forall {A : Type} (f : A -> bool) (l : list A) :
  forallb f l = true <-> Forall (fun x => f x = true) l.
Proof.
  induction l as [|x l IH]; simpl.
  - split; [constructor | reflexivity].
  - rewrite andb_true_iff, IH. split.
    + intros [H1 H2]. constructor; assumption.
    + intros H. inversion H; subst. split; assumption.
Qed.

Lemma existsb_true_Exists {A : Type} (f : A -> bool) (l : list A) :
  existsb f l = true <-> Exists (fun x => f x = true) l.
Proof.
  induction l as [|x l IH]; simpl.
  - split; [discriminate | intros H; inversion H].
  - rewrite orb_true_iff, IH. split.
    + intros [H|H]; [left | right]; assumption.
    + intros H. inversion H; subst; [left | right]; assumption.
Qed.

(** C7: on a group job, in every state of the heap, [completed] is true
    exactly when [completed] is true of every child and [failed] is true
    exactly when [failed] is true of some child; reading either property
    leaves the program, the log of requests included, as it was. *)
Theorem C7_parent_aggregates api interval attempt jobs p :
  let group := Parent api interval attempt jobs in
  read_completed group p = (Returns (completed (heap p) group), p)
  /\ read_failed group p = (Returns (failed (heap p) group), p)
  /\ (completed (heap p) group = true
      <-> Forall (fun job => completed (heap p) job = true) jobs)
  /\ (failed (heap p) group = true
      <-> Exists (fun job => failed (heap p) job = true) jobs).
Proof.
  intros group. split; [reflexivity|]. split; [reflexivity|]. split.
  - apply forallb_true_Forall.
  - apply existsb_true_Exists.
Qed.

(** C10: [update_job] of a group job does the same whatever batch it is
    given, none included: the body runs on a batch of its own, the final
    program is the same, and the batch handed in is handed back as it
    was. *)
Theorem C10_parent_update_job_ignores_batch remote rounds api interval attempt
    jobs batch1 batch2 p :
  let group := Parent api interval attempt jobs in
  let bound := map (fun job => (job, update_job remote rounds job)) jobs in
  ParentAsyncJob_update_job remote rounds api bound batch1 p
  = ParentAsyncJob_update_job remote rounds api bound batch2 p
  /\ snd (update_job remote rounds group batch1 p)
     = snd (update_job remote rounds group batch2 p)
  /\ fst (update_job remote rounds group batch1 p)
     = match fst (update_job remote rounds group batch2 p) with
       | Returns _ => Returns batch1
       | Raises e => Raises e
       | Unfinished => Unfinished
       end.
Proof.
  intros group bound. split; [reflexivity|].
  subst group. simpl. fold bound. unfold bind.
  change (ParentAsyncJob_update_job remote rounds api bound batch1 p)
    with (ParentAsyncJob_update_job remote rounds api bound batch2 p).
  destruct (ParentAsyncJob_update_job remote rounds api bound batch2 p)
    as [[u|e|] p']; split; reflexivity.
Qed.

(** *** Splitting *)

Lemma campaign_params_time_range j campaign_params :
  campaign_params_of j = inr campaign_params ->
  exists v, param_of j "time_range" = inr v.
Proof.
  unfold campaign_params_of, param_of.
  rewrite !lookup_insert_ne by discriminate.
  destruct (_params j !! "time_range") as [v|]; [|discriminate].
  intros _. exists v. reflexivity.
Qed.

(** C9: the code on a leaf job whose campaign query answers with no
    campaign.  The query is the only request sent and nothing is allocated.
    With INFO enabled for the logger, [split_job] raises the error of its
    [logger.info] call before any group job is built; with INFO not enabled
    it returns a group job without children.  Such a group is completed at
    once, not failed, and its [get_result] ends without a row and without
    an error. *)
Theorem C9_split_job_no_campaigns remote self p campaign_params result :
  let j := heap p self in
  campaign_params_of j = inr campaign_params ->
  insights remote (log (world p)) (_edge_object j) campaign_params
  = inr result ->
  campaign_ids_of result = inr ∅ ->
  let group := Parent (_api j) (_interval j) 1 [] in
  let p' :=
    {| heap := heap p; next_loc := next_loc p;
       world := sent (InsightsRequest (_edge_object j) campaign_params)
                     (world p) |} in
  split_job remote (Insight self) p
  = (if info_enabled remote then Raises (logger_error "num")
     else Returns group, p')
  /\ read_completed group p' = (Returns true, p')
  /\ read_failed group p' = (Returns false, p')
  /\ get_result remote group p' = (([], Returns tt), p').
Proof.
  intros j Hcp Hres Hids group p'.
  split; [|repeat split].
  destruct (campaign_params_time_range j campaign_params Hcp) as [v Hv].
  simpl. unfold InsightAsyncJob_split_job.
  unfold bind at 1. unfold get at 1. fold j. rewrite Hcp.
  unfold bind at 1. unfold lift_sum at 1, ret at 1.
  unfold bind at 1. unfold in_program, zoom, request. rewrite Hres.
  unfold bind at 1. rewrite Hids. unfold lift_sum at 1, ret at 1.
  unfold bind at 1. rewrite Hv. unfold lift_sum at 1, ret at 1.
  unfold bind at 1. unfold logger_info_keywords.
  destruct (info_enabled remote); [reflexivity|].
  rewrite elements_empty. simpl. reflexivity.
Qed.

Lemma C9_split_job_no_campaigns_witness :
  let p := {| heap := Demo.running_job; next_loc := 51%nat;
              world := Demo.world0 |} in
  fst (split_job (with_info Demo.remote) (Insight 3%nat) p)
  = Raises (TypeError
              "Logger._log() got an unexpected keyword argument 'num'").
Proof.
  intros p.
  destruct (C9_split_job_no_campaigns (with_info Demo.remote) 3%nat p _ []
              eq_refl eq_refl eq_refl) as [H _].
  rewrite H. reflexivity.
Defined.

(** The same call with INFO not enabled. *)
Example split_job_no_campaigns_quiet :
  let p := {| heap := Demo.running_job; next_loc := 51%nat;
              world := Demo.world0 |} in
  fst (split_job Demo.remote (Insight 3%nat) p)
  = Returns (Parent "api" Demo.week 1 []).
Proof. reflexivity. Qed.

(** C2: the code on a leaf job whose campaign query answers with at least
    one campaign.  [split_job] builds each child without the [interval]
    keyword, so the constructor of the first child raises [TypeError]: no
    group job is returned and nothing is allocated.  With INFO enabled for
    the logger the call raises already at its [logger.info] call, and no
    group job is returned either. *)
Theorem C2_split_job_with_campaigns_raises remote self p campaign_params
    result campaign_ids :
  let j := heap p self in
  campaign_params_of j = inr campaign_params ->
  insights remote (log (world p)) (_edge_object j) campaign_params
  = inr result ->
  campaign_ids_of result = inr campaign_ids ->
  campaign_ids <> ∅ ->
  split_job remote (Insight self) p
  = (Raises
       (if info_enabled remote then logger_error "num"
        else TypeError
               "__init__() missing 1 required positional argument: 'interval'"),
     {| heap := heap p; next_loc := next_loc p;
        world := sent (InsightsRequest (_edge_object j) campaign_params)
                      (world p) |}).
Proof.
  intros j Hcp Hres Hids Hne.
  destruct (campaign_params_time_range j campaign_params Hcp) as [v Hv].
  destruct (elements campaign_ids) as [|pk pks] eqn:Hel.
  { exfalso. apply Hne. apply leibniz_equiv.
    apply elements_empty_inv. rewrite Hel. reflexivity. }
  simpl. unfold InsightAsyncJob_split_job.
  unfold bind at 1. unfold get at 1. fold j. rewrite Hcp.
  unfold bind at 1. unfold lift_sum at 1, ret at 1.
  unfold bind at 1. unfold in_program, zoom, request. rewrite Hres.
  unfold bind at 1. rewrite Hids. unfold lift_sum at 1, ret at 1.
  unfold bind at 1. rewrite Hv. unfold lift_sum at 1, ret at 1.
  unfold bind at 1. unfold logger_info_keywords.
  destruct (info_enabled remote); [reflexivity|].
  rewrite Hel. reflexivity.
Qed.

Lemma C2_split_job_with_campaigns_raises_witness :
  fst (split_job DemoSplit.remote (Insight 3%nat) DemoSplit.program)
  = Raises
      (TypeError
         "__init__() missing 1 required positional argument: 'interval'").
Proof.
  assert (Hne : ({[ "A" ]} ∪ ({[ "B" ]} ∪ ({[ "C" ]} ∪ ({[ "A" ]} ∪ ∅))))
                <> (∅ : gset string)).
  { intros H. assert (Hin : "A" ∈ (∅ : gset string)).
    { rewrite <- H. apply elem_of_union_l, elem_of_singleton. reflexivity. }
    exact (not_elem_of_empty _ Hin). }
  rewrite (C2_split_job_with_campaigns_raises DemoSplit.remote 3%nat
             DemoSplit.program _ _ _ eq_refl eq_refl eq_refl Hne).
  reflexivity.
Defined.

(** *** Chunks *)

Lemma take_plus {A : Type} (n m : nat) (l : list A) :
  take (n + m) l = take n l ++ take m (drop n l).
Proof.
  revert l. induction n as [|n IH]; intros l; simpl.
  - reflexivity.
  - destruct l as [|x l]; simpl.
    + destruct m; reflexivity.
    + rewrite IH. reflexivity.
Qed.

Lemma concat_slices {A : Type} (data : list A) (n count start : nat) :
  concat (map (fun i => slice data i (i + n)) (range_from count start n))
  = take (count * n) (drop start data).
Proof.
  revert start. induction count as [|count IH]; intros start; simpl.
  - reflexivity.
  - rewrite IH. unfold slice.
    replace (start + n - start)%nat with n by lia.
    rewrite take_plus, drop_drop. reflexivity.
Qed.

(** For a positive chunk size the generator yields [chunks_list]. *)
Lemma chunks_positive {A : Type} (data : list A) (n : nat) :
  (0 < n)%nat -> chunks data (Z.of_nat n) = inr (chunks_list data n).
Proof.
  intros Hn. unfold chunks, py_range, chunks_list.
  destruct (decide (Z.of_nat n = 0)) as [H|_]; [lia|].
  destruct (decide (Z.of_nat n < 0)) as [H|_]; [lia|].
  rewrite Nat2Z.id. reflexivity.
Qed.

(** The chunks, put end to end, are the data. *)
Lemma chunks_concat {A : Type} (data : list A) (n : nat) :
  (0 < n)%nat -> concat (chunks_list data n) = data.
Proof.
  intros Hn. unfold chunks_list. rewrite concat_slices. simpl.
  apply take_ge.
  pose proof (Nat.div_mod_eq (length data + n - 1) n) as Hdiv.
  pose proof (Nat.mod_upper_bound (length data + n - 1) n) as Hmod.
  nia.
Qed.

(** No chunk is longer than the chunk size. *)
Lemma chunks_bounded {A : Type} (data : list A) (n : nat) :
  Forall (fun chunk => (length chunk <= n)%nat) (chunks_list data n).
Proof.
  unfold chunks_list. apply Forall_map, Forall_forall. intros i _. simpl.
  unfold slice. rewrite length_take. lia.
Qed.

Example chunks_of_120 :
  chunks (seq 0 120) 50 = inr (chunks_list (seq 0 120) chunk_size)
  /\ map length (chunks_list (seq 0 120) chunk_size) = [50; 50; 20]%nat.
Proof. split; reflexivity. Qed.

(** *** Draining a batch *)

(** When the loop returns, the variable [batch] is falsy: nothing is left
    to retry. *)
Lemma while_batch_drained remote rounds batch p batch' p' :
  while_batch remote rounds batch p = (Returns batch', p') ->
  batch_truthy batch' = false.
Proof.
  revert batch p. induction rounds as [|rounds IH]; intros batch p.
  - destruct batch as [b|]; simpl.
    + destruct (batch_calls b) eqn:Hc; simpl.
      * intros [= <- _]. simpl. rewrite Hc. reflexivity.
      * discriminate.
    + intros [= <- _]. reflexivity.
  - destruct batch as [b|]; simpl.
    + destruct (batch_calls b) eqn:Hc; simpl.
      * intros [= <- _]. simpl. rewrite Hc. reflexivity.
      * unfold bind.
        destruct (FacebookAdsApiBatch_execute remote b p) as [[b1|e|] p1].
        -- apply IH.
        -- discriminate.
        -- discriminate.
    + intros [= <- _]. reflexivity.
Qed.

(** A run that ends within its budget of rounds ends the same way within
    any larger budget. *)
Lemma while_batch_more_rounds remote rounds rounds' batch p :
  fst (while_batch remote rounds batch p) <> Unfinished ->
  (rounds <= rounds')%nat ->
  while_batch remote rounds' batch p = while_batch remote rounds batch p.
Proof.
  revert rounds' batch p.
  induction rounds as [|rounds IH]; intros rounds' batch p Hfin Hle.
  - destruct batch as [b|]; [|destruct rounds'; reflexivity].
    simpl in *. destruct (batch_calls b) eqn:Hc; simpl in *.
    + destruct rounds'; simpl; rewrite Hc; reflexivity.
    + exfalso. apply Hfin. reflexivity.
  - destruct rounds' as [|rounds']; [lia|].
    destruct batch as [b|]; [|reflexivity].
    simpl in *. destruct (batch_calls b) eqn:Hc; simpl in *; [reflexivity|].
    unfold bind in *.
    destruct (FacebookAdsApiBatch_execute remote b p) as [[b1|e|] p1];
      [|reflexivity|reflexivity].
    apply IH; [exact Hfin | lia].
Qed.

(** *** [update_job] on a group of 51 running jobs *)

(** C1: the code on a group job of 51 started, unfinished leaf jobs, with a
    remote that answers every batched call.  The first 50 status checks go
    out in one batch request; the loop that drains the batch leaves the
    variable [batch] at [None], so the check of the child of the second
    chunk is sent as an immediate status request and not through a
    batch. *)
Theorem C1_second_chunk_not_batched :
  Forall (fun job => completed (heap Demo51.program) job = false)
         Demo51.children
  /\ fst Demo51.final = Returns None
  /\ log (world (snd Demo51.final))
     = [BatchRequest (map pretty (seq 0 50)); StatusRequest "50"]
  /\ completed (heap (snd Demo51.final)) (Insight 49%nat) = true
  /\ completed (heap (snd Demo51.final)) (Insight 50%nat) = false.
Proof.
  split.
  - unfold Demo51.children. simpl.
    repeat (constructor; [reflexivity|]). constructor.
  - vm_compute. repeat split.
Qed.

(** *** The scenario of 120 unfinished jobs *)

(** With 120 unfinished children the run ends with every child observed
    as completed; the first chunk takes three round trips of 50, 25 and 12
    calls, and the 70 children of the other two chunks are asked one by
    one in immediate status requests. *)
Example update_job_120 :
  fst Demo120.final = Returns None
  /\ map Demo120.batch_size
       (filter (fun ev => Demo120.is_batch_request ev = true)
               (log (world (snd Demo120.final))))
     = [50; 25; 12]%nat
  /\ length (filter (fun ev => Demo120.is_status_request ev = true)
                    (log (world (snd Demo120.final))))
     = 70%nat
  /\ completed (heap (snd Demo120.final)) Demo120.group = true.
Proof. vm_compute. repeat split. Qed.

(** Two round trips are not enough for the first chunk here: the budget of
    rounds runs out and the run is left unfinished. *)
Example update_job_120_out_of_rounds :
  fst (update_job Demo120.remote 2 Demo120.group None Demo120.program)
  = Unfinished.
Proof. vm_compute. reflexivity. Qed.

(** * Further properties of the module *)

(** ** [chunks] *)

Lemma range_from_seq (count start step : nat) :
  range_from count start step
  = map (fun k => (start + k * step)%nat) (seq 0 count).
Proof.
  revert start. induction count as [|count IH]; intros start; simpl.
  - reflexivity.
  - f_equal; [lia|]. rewrite IH, <- seq_shift, map_map.
    apply map_ext. intros k. lia.
Qed.

Lemma chunks_by_index {A : Type} (data : list A) (n : nat) :
  chunks_list data n
  = map (fun k => take n (drop (k * n) data))
        (seq 0 ((length data + n - 1) / n)).
Proof.
  unfold chunks_list. rewrite range_from_seq, map_map.
  apply map_ext. intros k. unfold slice. simpl. f_equal. lia.
Qed.

Lemma chunk_count_bounds (len n : nat) :
  (0 < n)%nat ->
  let count := ((len + n - 1) / n)%nat in
  (len <= count * n)%nat /\ (forall k, (k < count)%nat -> (k * n < len)%nat).
Proof.
  intros Hn count.
  pose proof (Nat.div_mod_eq (len + n - 1) n) as Hdiv.
  pose proof (Nat.mod_upper_bound (len + n - 1) n) as Hmod.
  fold count in Hdiv. split; [nia|]. intros k Hk. nia.
Qed.

(** X1: for a positive chunk size the generator raises nothing; the chunks
    put end to end give back the data; no chunk is empty or longer than the
    size; and every chunk but the last has exactly the size. *)
Theorem X1_chunks_partition {A : Type} (data : list A) (n : nat) :
  (0 < n)%nat ->
  exists cs,
    chunks data (Z.of_nat n) = inr cs
    /\ concat cs = data
    /\ Forall (fun chunk => (0 < length chunk <= n)%nat) cs
    /\ (forall k chunk,
          cs !! k = Some chunk -> (S k < length cs)%nat -> length chunk = n).
Proof.
  intros Hn. exists (chunks_list data n).
  split.
  - unfold chunks, py_range, chunks_list.
    destruct (decide (Z.of_nat n = 0)) as [H|_]; [lia|].
    destruct (decide (Z.of_nat n < 0)) as [H|_]; [lia|].
    rewrite Nat2Z.id. reflexivity.
  - destruct (chunk_count_bounds (length data) n Hn) as [Hup Hlow].
    split; [|split].
    + unfold chunks_list. rewrite concat_slices. simpl.
      apply take_ge. exact Hup.
    + rewrite chunks_by_index. apply Forall_map, Forall_forall.
      intros k Hk. apply in_seq in Hk. simpl.
      rewrite length_take, length_drop.
      specialize (Hlow k ltac:(lia)). lia.
    + intros k chunk. rewrite chunks_by_index.
      rewrite list_lookup_fmap, length_map, length_seq.
      intros Hk Hlt.
      rewrite lookup_seq_lt in Hk by lia. simpl in Hk.
      injection Hk as <-. rewrite length_take, length_drop.
      specialize (Hlow (S k) Hlt). lia.
Qed.

Lemma X1_chunks_partition_witness :
  exists cs,
    chunks [1; 2; 3; 4; 5] 2 = inr cs /\ concat cs = [1; 2; 3; 4; 5].
Proof.
  destruct (X1_chunks_partition [1; 2; 3; 4; 5] 2 ltac:(lia))
    as (cs & H1 & H2 & _).
  exists cs. split; [exact H1 | exact H2].
Defined.

Lemma chunks_short {A : Type} (data : list A) (n : nat) :
  (length data <= n)%nat ->
  chunks_list data n = match data with [] => [] | _ :: _ => [data] end.
Proof.
  intros Hlen. destruct data as [|x data].
  - unfold chunks_list. simpl.
    destruct n as [|n]; [reflexivity|].
    replace (S n - 1)%nat with n by lia.
    rewrite Nat.div_small by lia. reflexivity.
  - simpl in Hlen. rewrite chunks_by_index.
    assert (Hc : ((length (x :: data) + n - 1) / n = 1)%nat).
    { symmetry. apply (Nat.div_unique _ _ _ (length data)); simpl; lia. }
    rewrite Hc. simpl. rewrite take_ge by (simpl; lia). reflexivity.
Qed.

(** X2: the edges of [chunks].  A chunk size of zero raises the
    [ValueError] of [range]; a negative size yields nothing; for a positive
    size, data no longer than the size is a single chunk, the data itself,
    and empty data gives no chunk at all. *)
Theorem X2_chunks_short {A : Type} (data : list A) (n : Z) :
  (n = 0 ->
     chunks data n = inl (ValueError "range() arg 3 must not be zero"))
  /\ (n < 0 -> chunks data n = inr [])
  /\ (0 < n -> Z.of_nat (length data) <= n ->
      chunks data n = inr (match data with [] => [] | _ :: _ => [data] end)).
Proof.
  split; [|split].
  - intros ->. reflexivity.
  - intros Hn. unfold chunks, py_range.
    destruct (decide (n = 0)) as [H|_]; [lia|].
    destruct (decide (n < 0)) as [_|H]; [reflexivity | lia].
  - intros Hn Hlen. unfold chunks, py_range.
    destruct (decide (n = 0)) as [H|_]; [lia|].
    destruct (decide (n < 0)) as [H|_]; [lia|].
    f_equal. destruct data as [|x data].
    + simpl. replace (Z.to_nat n - 1)%nat with (Z.to_nat n - 1 + 0)%nat by lia.
      rewrite Nat.div_small by lia. reflexivity.
    + simpl in Hlen.
      assert (Hc : ((length (x :: data) + Z.to_nat n - 1) / Z.to_nat n
                    = 1)%nat).
      { symmetry. apply (Nat.div_unique _ _ _ (length data)); simpl; lia. }
      rewrite Hc. simpl. unfold slice. simpl.
      destruct (Z.to_nat n) as [|m] eqn:Hm; [lia|].
      simpl. rewrite take_ge by lia. reflexivity.
Qed.

Lemma X2_chunks_short_witness :
  chunks [7; 8; 9] 50 = inr [[7; 8; 9]]
  /\ chunks [7; 8; 9] 0 = inl (ValueError "range() arg 3 must not be zero")
  /\ chunks [7; 8; 9] (-1) = inr [].
Proof.
  destruct (X2_chunks_short [7; 8; 9] 50) as (_ & _ & H1).
  destruct (X2_chunks_short [7; 8; 9] 0) as (H2 & _).
  destruct (X2_chunks_short [7; 8; 9] (-1)) as (_ & H3 & _).
  split; [exact (H1 ltac:(lia) ltac:(simpl; lia))|].
  split; [exact (H2 eq_refl) | exact (H3 ltac:(lia))].
Defined.

(** ** The constructor *)

(** X3: the constructor fails, with a [TypeError], exactly when a keyword
    other than [api] and [interval] is given or one of these two is
    missing.  Otherwise the job is unstarted, neither completed nor failed,
    at attempt 1; its [time_range] is the one of the interval, whatever
    [time_range] the caller's parameters held, and every other parameter is
    the caller's. *)
Theorem X3_init_fields edge_object params kwargs :
  match InsightAsyncJob_init edge_object params kwargs with
  | inr j =>
      kw_others kwargs = []
      /\ kw_api kwargs = Some (_api j)
      /\ kw_interval kwargs = Some (_interval j)
      /\ _edge_object j = edge_object
      /\ _attempt_number j = 1
      /\ _job j = None /\ _start_time j = None
      /\ InsightAsyncJob_completed j = false
      /\ InsightAsyncJob_failed j = false
      /\ _params j !! "time_range" = Some (time_range_of (_interval j))
      /\ (forall k, k <> "time_range" -> _params j !! k = params !! k)
  | inl e =>
      (kw_others kwargs <> []
       \/ kw_api kwargs = None \/ kw_interval kwargs = None)
      /\ exists msg, e = TypeError msg
  end.
Proof.
  unfold InsightAsyncJob_init, AsyncJob_init.
  destruct (kw_others kwargs) as [|name others]; simpl.
  2: { split; [left; discriminate | eexists; reflexivity]. }
  destruct (kw_api kwargs) as [api|], (kw_interval kwargs) as [interval|];
    simpl.
  - repeat split.
    + apply lookup_insert_eq.
    + intros k Hk. apply lookup_insert_ne. congruence.
  - split; [right; right; reflexivity | eexists; reflexivity].
  - split; [right; left; reflexivity | eexists; reflexivity].
  - split; [right; left; reflexivity | eexists; reflexivity].
Qed.

(** ** What the methods of a leaf job keep *)

Section Keeps.

Context (R : InsightAsyncJob -> InsightAsyncJob -> Prop).
Context (R_refl : forall j, R j j).
Context (R_trans : forall j1 j2 j3, R j1 j2 -> R j2 j3 -> R j1 j3).

Lemma keeps_ret {A : Type} (a : A) : keeps R (ret a).
Proof. intros j w. apply R_refl. Qed.

Lemma keeps_raise {A : Type} (e : Exception) : keeps R (raise (A := A) e).
Proof. intros j w. apply R_refl. Qed.

Lemma keeps_bind {A B : Type} (m : Eff (InsightAsyncJob * World) A)
    (k : A -> Eff (InsightAsyncJob * World) B) :
  keeps R m -> (forall a, keeps R (k a)) -> keeps R (bind m k).
Proof.
  intros Hm Hk j w. unfold bind. specialize (Hm j w).
  destruct (m (j, w)) as [[a|e|] [j' w']]; simpl in *; try exact Hm.
  eapply R_trans; [exact Hm | apply Hk].
Qed.

Lemma keeps_self : keeps R self_.
Proof. intros j w. apply R_refl. Qed.

Lemma keeps_lift_sum {A : Type} (r : Exception + A) : keeps R (lift_sum r).
Proof. destruct r; [apply keeps_raise | apply keeps_ret]. Qed.

Lemma keeps_in_world {A : Type} (m : Eff World A) : keeps R (in_world m).
Proof.
  intros j w. unfold in_world, zoom. simpl.
  destruct (m w) as [o w']. apply R_refl.
Qed.

Lemma keeps_assign (f : InsightAsyncJob -> InsightAsyncJob) :
  (forall j, R j (f j)) -> keeps R (assign f).
Proof. intros Hf j w. apply Hf. Qed.

Lemma keeps_usage_error {A : Type} (what : string) :
  keeps R (usage_error (A := A) what).
Proof.
  unfold usage_error. apply keeps_bind; [apply keeps_self|]. intros j.
  destruct (InsightAsyncJob_str j); apply keeps_raise.
Qed.

Lemma keeps_logger_info_keywords remote (keyword : string) :
  keeps R (logger_info_keywords remote keyword).
Proof.
  unfold logger_info_keywords.
  destruct (info_enabled remote); [apply keeps_raise | apply keeps_ret].
Qed.

Lemma keeps_param (k : string) : keeps R (param k).
Proof.
  unfold param. apply keeps_bind; [apply keeps_self|]. intros j.
  apply keeps_lift_sum.
Qed.

End Keeps.

Lemma same_attempt_refl j : same_attempt j j.
Proof. repeat split. Qed.

Lemma same_attempt_trans j1 j2 j3 :
  same_attempt j1 j2 -> same_attempt j2 j3 -> same_attempt j1 j3.
Proof. unfold same_attempt, same_request. intuition congruence. Qed.

Ltac keeps_step :=
  first
    [ apply keeps_ret; [apply same_attempt_refl]
    | apply keeps_raise; [apply same_attempt_refl]
    | apply keeps_self; [apply same_attempt_refl]
    | apply keeps_in_world; [apply same_attempt_refl]
    | apply keeps_usage_error;
        [apply same_attempt_refl | apply same_attempt_trans]
    | apply keeps_param; [apply same_attempt_refl | apply same_attempt_trans]
    | apply keeps_logger_info_keywords; [apply same_attempt_refl]
    | apply keeps_assign; intros ?; repeat split
    | apply keeps_bind; [apply same_attempt_trans | | intros ?] ].

Lemma start_same_attempt remote :
  keeps same_attempt (InsightAsyncJob_start remote).
Proof.
  unfold InsightAsyncJob_start. keeps_step; [keeps_step|].
  destruct (job_truthy a); repeat keeps_step.
Qed.

Lemma elapsed_time_same_attempt remote :
  keeps same_attempt (InsightAsyncJob_elapsed_time remote).
Proof.
  unfold InsightAsyncJob_elapsed_time. keeps_step; [keeps_step|].
  destruct (_start_time a); [|keeps_step].
  keeps_step; [|keeps_step]. destruct (_finish_time a); keeps_step.
Qed.

Lemma check_status_same_attempt remote :
  keeps same_attempt (InsightAsyncJob_check_status remote).
Proof.
  unfold InsightAsyncJob_check_status. keeps_step; [keeps_step|].
  destruct (_job a) as [run|]; [|keeps_step].
  keeps_step; [keeps_step|].
  destruct (status_is (async_status run) COMPLETED); [repeat keeps_step|].
  destruct (status_is (async_status run) FAILED
            || status_is (async_status run) SKIPPED); [|keeps_step].
  do 3 (keeps_step; [keeps_step|]).
  keeps_step; [apply elapsed_time_same_attempt|].
  match goal with o : option Z |- _ => destruct o end; repeat keeps_step.
Qed.

Lemma update_job_same_attempt remote self batch :
  keeps same_attempt (InsightAsyncJob_update_job remote self batch).
Proof.
  unfold InsightAsyncJob_update_job. keeps_step; [keeps_step|].
  destruct (_job a) as [run|]; [|keeps_step].
  destruct (InsightAsyncJob_completed a); [repeat keeps_step|].
  destruct batch; [keeps_step|].
  do 2 (keeps_step; [keeps_step|]).
  keeps_step; [apply check_status_same_attempt | keeps_step].
Qed.

Lemma batch_success_handler_same_attempt remote response :
  keeps same_attempt (InsightAsyncJob_batch_success_handler remote response).
Proof.
  unfold InsightAsyncJob_batch_success_handler. keeps_step; [keeps_step|].
  destruct (_job a); [|keeps_step].
  keeps_step; [keeps_step|].
  keeps_step; [apply check_status_same_attempt | keeps_step].
Qed.

Lemma get_result_same_attempt remote :
  keeps same_attempt (InsightAsyncJob_get_result remote).
Proof.
  unfold InsightAsyncJob_get_result. keeps_step; [keeps_step|].
  destruct (_job a); [|keeps_step].
  destruct (InsightAsyncJob_failed a); keeps_step.
Qed.

Lemma restart_next_attempt remote :
  keeps next_attempt (InsightAsyncJob_restart remote).
Proof.
  intros j w. unfold InsightAsyncJob_restart.
  unfold bind at 1. unfold self_ at 1. simpl.
  destruct (negb (job_truthy j) || negb (InsightAsyncJob_failed j)).
  - pose proof (keeps_usage_error same_attempt same_attempt_refl
                  same_attempt_trans (A := unit)
                  ": Incorrect usage of restart - only failed jobs can be restarted"
                  j w) as [H1 H2].
    split; [exact H1 | left; exact H2].
  - unfold bind, assign, modify. simpl.
    match goal with
    | |- next_attempt _ (fst (snd (InsightAsyncJob_start remote (?j0, _)))) =>
        pose proof (start_same_attempt remote j0 w) as [(H1 & H2 & H3 & H4) H5]
    end.
    simpl in *. repeat split; try assumption. right. exact H5.
Qed.

(** X4: no method of a leaf job changes [_api], [_interval], [_params] or
    [_edge_object], so the key of a job and the report it asks for never
    change; only [restart] changes the attempt number, and by at most
    one. *)
Theorem X4_request_fields_are_kept remote self batch response j w :
  let after {A : Type} (m : JobM A) := fst (snd (m (j, w))) in
  same_attempt j (after (InsightAsyncJob_start remote))
  /\ same_attempt j (after (InsightAsyncJob_check_status remote))
  /\ same_attempt j (after (InsightAsyncJob_update_job remote self batch))
  /\ same_attempt j
       (after (InsightAsyncJob_batch_success_handler remote response))
  /\ same_attempt j (after (InsightAsyncJob_get_result remote))
  /\ same_attempt j (after (InsightAsyncJob_elapsed_time remote))
  /\ next_attempt j (after (InsightAsyncJob_restart remote))
  /\ InsightAsyncJob_key (after (InsightAsyncJob_restart remote))
     = InsightAsyncJob_key j.
Proof.
  intros after. subst after. simpl.
  split; [apply start_same_attempt|].
  split; [apply check_status_same_attempt|].
  split; [apply update_job_same_attempt|].
  split; [apply batch_success_handler_same_attempt|].
  split; [apply get_result_same_attempt|].
  split; [apply elapsed_time_same_attempt|].
  pose proof (restart_next_attempt remote j w) as H.
  split; [exact H|].
  destruct H as [(_ & H & _) _]. unfold InsightAsyncJob_key. rewrite H.
  reflexivity.
Qed.

Lemma init_params edge_object params kwargs :
  match InsightAsyncJob_init edge_object params kwargs with
  | inr j =>
      _params j !! "time_range" = Some (time_range_of (_interval j))
      /\ (forall k, k <> "time_range" -> _params j !! k = params !! k)
  | inl _ => True
  end.
Proof.
  unfold InsightAsyncJob_init, AsyncJob_init.
  destruct (kw_others kwargs), (kw_api kwargs), (kw_interval kwargs); simpl;
    try exact I.
  split; [apply lookup_insert_eq|].
  intros k Hk. apply lookup_insert_ne. congruence.
Qed.

Lemma init_attempt_number edge_object params kwargs :
  match InsightAsyncJob_init edge_object params kwargs with
  | inr j => _attempt_number j = 1
  | inl _ => True
  end.
Proof.
  unfold InsightAsyncJob_init, AsyncJob_init.
  destruct (kw_others kwargs), (kw_api kwargs), (kw_interval kwargs); simpl;
    exact I || reflexivity.
Qed.

(** X5: the constructor leaves a job in which a failed job is completed, a
    completed job has a report run, a job with a report run has a start
    time, and the attempt number is at least 1; [start], [restart],
    [_check_status], [update_job] and the success handler of a batch keep
    all of this, whether they return or raise. *)
Theorem X5_class_invariant remote self batch response j w :
  leaf_ok j ->
  let after {A : Type} (m : JobM A) := fst (snd (m (j, w))) in
  leaf_ok (after (InsightAsyncJob_start remote))
  /\ leaf_ok (after (InsightAsyncJob_restart remote))
  /\ leaf_ok (after (InsightAsyncJob_check_status remote))
  /\ leaf_ok (after (InsightAsyncJob_update_job remote self batch))
  /\ leaf_ok (after (InsightAsyncJob_batch_success_handler remote response))
  /\ (forall edge_object params kwargs j0,
        InsightAsyncJob_init edge_object params kwargs = inr j0 -> leaf_ok j0).
Proof.
  intros [Hinv Hn] after. subst after. simpl.
  assert (Hsame : forall j', same_attempt j j' -> 1 <= _attempt_number j').
  { intros j' [_ H]. rewrite H. exact Hn. }
  split; [split; [apply start_invariant, Hinv
                 | apply Hsame, start_same_attempt]|].
  split.
  { split; [apply restart_invariant, Hinv|].
    destruct (restart_next_attempt remote j w) as [_ [H|H]]; rewrite H; lia. }
  split; [split; [apply check_status_invariant, Hinv
                 | apply Hsame, check_status_same_attempt]|].
  split; [split; [apply update_job_invariant, Hinv
                 | apply Hsame, update_job_same_attempt]|].
  split; [split; [apply batch_success_handler_invariant, Hinv
                 | apply Hsame, batch_success_handler_same_attempt]|].
  intros edge_object params kwargs j0 Hinit. split.
  - eapply init_invariant, Hinit.
  - pose proof (init_attempt_number edge_object params kwargs) as H.
    rewrite Hinit in H. rewrite H. lia.
Qed.

Lemma demo_failed_job_ok : leaf_ok Demo.failed_job.
Proof.
  split; [|simpl; lia]. unfold leaf_invariant. simpl.
  repeat split; intros _; discriminate.
Qed.

Lemma X5_class_invariant_witness :
  leaf_ok (fst (snd (InsightAsyncJob_restart Demo.remote
                       (Demo.failed_job, Demo.world0)))).
Proof.
  exact (proj1 (proj2 (X5_class_invariant Demo.remote 0%nat None
                         (Demo.run 7 "Job Running") Demo.failed_job
                         Demo.world0 demo_failed_job_ok))).
Defined.

(** ** [start] *)

(** X6: [start] on a job without a report run sends exactly one
    asynchronous insights request, for the edge object and parameters of
    the job.  If the remote refuses it, the job is left as it was and the
    clock is not read.  Otherwise the job holds the report run and the
    current instant as its start time, even when the call then raises: the
    [KeyError] of a missing [time_range] or [breakdowns] parameter, or,
    with INFO enabled for the logger, the error of the [logger.info] call.
    The call returns only with both parameters present and INFO not
    enabled; the finish time and the failed flag are never touched. *)
Theorem X6_start_unstarted remote j w :
  _job j = None ->
  let ev := InsightsAsyncRequest (_edge_object j) (_params j) in
  let result := InsightAsyncJob_start remote (j, w) in
  match insights_async remote (log w) (_edge_object j) (_params j) with
  | inl msg => result = (Raises (FacebookRequestError msg), (j, sent ev w))
  | inr run =>
      snd result
      = (set_start_time (Some (clock remote (ticks w))) (set_job (Some run) j),
         tick (sent ev w))
      /\ fst result
         = match param_of j "time_range", param_of j "breakdowns" with
           | inl e, _ => Raises e
           | inr _, inl e => Raises e
           | inr _, inr _ =>
               if info_enabled remote then Raises (logger_error "job_id")
               else Returns tt
           end
  end.
Proof.
  intros Hjob ev result. subst result ev.
  destruct (insights_async remote (log w) (_edge_object j) (_params j))
    as [msg|run] eqn:Hsub;
    unfold InsightAsyncJob_start; unfold_eff; simpl;
    unfold job_truthy; rewrite Hjob; simpl; rewrite Hsub; simpl;
    [reflexivity|].
  unfold param_of. simpl.
  destruct (_params j !! "time_range"); simpl;
    [destruct (_params j !! "breakdowns"); simpl;
     [destruct (info_enabled remote); simpl|]|]; split; reflexivity.
Qed.

Lemma X6_start_unstarted_witness :
  InsightAsyncJob_start Demo.remote (Demo.bare_job, Demo.world0)
  = (Raises (KeyError "breakdowns"),
     (Demo.bare_started_job_at 0 1000,
      tick (sent (InsightsAsyncRequest (AdAccount "act_1")
                    (_params Demo.bare_job)) Demo.world0))).
Proof.
  pose proof (X6_start_unstarted Demo.remote Demo.bare_job Demo.world0
                eq_refl) as H.
  simpl in H. destruct H as [H1 H2].
  apply injective_projections; [exact H2 | exact H1].
Defined.

(** ** [update_job] *)

Lemma update_job_with_batch remote self b j w :
  let result := InsightAsyncJob_update_job remote self (Some b) (j, w) in
  snd result = (j, w)
  /\ match _job j with
     | Some run =>
         fst result
         = if InsightAsyncJob_completed j then
             if info_enabled remote then Raises (logger_error "job")
             else Returns (Some b)
           else
             Returns
               (Some (batch_add b {| call_run := run; call_self := self |}))
     | None => forall b', fst result <> Returns b'
     end.
Proof.
  intros result. subst result.
  unfold InsightAsyncJob_update_job. unfold_eff. simpl.
  destruct (_job j) as [run|]; simpl.
  - destruct (InsightAsyncJob_completed j); [|split; reflexivity].
    destruct (info_enabled remote); split; reflexivity.
  - destruct (InsightAsyncJob_str j); simpl; split;
      reflexivity || (intros b'; discriminate).
Qed.

(** X7: [update_job] called with a batch sends nothing, reads no clock and
    changes no field of the job, whatever the state of the job.  The batch
    comes back with one more call, for the report run of the job and with
    the handlers of this job, exactly when the job has a report run and is
    not completed; a completed job hands the batch back as it was when
    INFO is not enabled for the logger and raises the error of its
    [logger.info] call when it is; a job without a report run raises. *)
Theorem X7_update_job_with_batch remote self b j w :
  let result := InsightAsyncJob_update_job remote self (Some b) (j, w) in
  snd result = (j, w)
  /\ match _job j with
     | Some run =>
         fst result
         = if InsightAsyncJob_completed j then
             if info_enabled remote then Raises (logger_error "job")
             else Returns (Some b)
           else
             Returns
               (Some (batch_add b {| call_run := run; call_self := self |}))
     | None => forall b', fst result <> Returns b'
     end.
Proof.
  intros result. subst result.
  unfold InsightAsyncJob_update_job. unfold_eff. simpl.
  destruct (_job j) as [run|]; simpl.
  - destruct (InsightAsyncJob_completed j); [|split; reflexivity].
    destruct (info_enabled remote); split; reflexivity.
  - destruct (InsightAsyncJob_str j); simpl; split;
      reflexivity || (intros b'; discriminate).
Qed.

Lemma check_status_observes remote j w run :
  _job j = Some run ->
  _start_time j <> None ->
  let status := async_status run in
  let t := clock remote (ticks w) in
  InsightAsyncJob_check_status remote (j, w)
  = if info_enabled remote then (Raises (logger_error "job"), (j, w))
    else if status_is status COMPLETED then
      (Returns true, (set_finish_time (Some t) j, tick w))
    else if is_failure status then
      (Returns true, (set_failed true (set_finish_time (Some t) j), tick w))
    else (Returns false, (j, w)).
Proof.
  intros Hjob Hst status t. subst status t.
  unfold InsightAsyncJob_check_status, InsightAsyncJob_elapsed_time, is_failure.
  unfold_eff. simpl. rewrite Hjob.
  destruct (info_enabled remote) eqn:Hinfo; [reflexivity|].
  destruct (status_is (async_status run) COMPLETED); [reflexivity|].
  destruct (status_is (async_status run) FAILED
            || status_is (async_status run) SKIPPED); [|reflexivity].
  simpl. destruct (_start_time j); [reflexivity | congruence].
Qed.

Lemma pollable_facts j :
  leaf_invariant j -> _job j <> None -> InsightAsyncJob_completed j = false ->
  _start_time j <> None /\ _finish_time j = None /\ _failed j = false.
Proof.
  intros (Hf & _ & Hs) Hjob Hc.
  unfold InsightAsyncJob_completed in Hc. apply bool_decide_eq_false in Hc.
  assert (Hfin : _finish_time j = None)
    by (destruct (_finish_time j); [exfalso; apply Hc; discriminate
                                   | reflexivity]).
  split; [apply Hs, Hjob|]. split; [exact Hfin|].
  destruct (_failed j); [|reflexivity].
  exfalso. apply Hf; [reflexivity | exact Hfin].
Qed.

(** X8: [update_job] called without a batch on a started job that is not
    completed sends exactly one status request, for the report run of the
    job.  If the remote refuses it, the job is left as it was.  Otherwise
    the job holds the report run of the answer.  With INFO enabled for the
    logger the call then raises the error of the [logger.info] call of
    [_check_status] and nothing else is recorded.  With INFO not enabled
    the call returns; the job is completed exactly when the answered status
    is [Job Completed], [Job Failed] or [Job Skipped], failed exactly when
    it is one of the last two, and a completed job has the current instant
    as its finish time. *)
Theorem X8_update_job_immediate remote self j w run :
  leaf_invariant j ->
  _job j = Some run ->
  InsightAsyncJob_completed j = false ->
  let ev := StatusRequest (report_run_id run) in
  let result := InsightAsyncJob_update_job remote self None (j, w) in
  let j' := fst (snd result) in
  log (snd (snd result)) = log w ++ [ev]
  /\ match status_fetch remote (log w) run with
     | inl msg => result = (Raises (FacebookRequestError msg), (j, sent ev w))
     | inr run' =>
         _job j' = Some run'
         /\ if info_enabled remote then
              result
              = (Raises (logger_error "job"),
                 (set_job (Some run') j, sent ev w))
            else
              fst result = Returns None
              /\ InsightAsyncJob_completed j' = is_terminal (async_status run')
              /\ InsightAsyncJob_failed j' = is_failure (async_status run')
              /\ (is_terminal (async_status run') = true ->
                  _finish_time j' = Some (clock remote (ticks w)))
     end.
Proof.
  intros Hinv Hjob Hc ev result j'.
  destruct (pollable_facts j Hinv ltac:(congruence) Hc) as (Hst & Hfin & Hf).
  assert (Heq : result
                = match status_fetch remote (log w) run with
                  | inl msg => (Raises (FacebookRequestError msg), (j, sent ev w))
                  | inr run' =>
                      let '(o, s) :=
                        InsightAsyncJob_check_status remote
                          (set_job (Some run') j, sent ev w) in
                      (match o with
                       | Returns _ => Returns None
                       | Raises e => Raises e
                       | Unfinished => Unfinished
                       end, s)
                  end).
  { subst result. unfold InsightAsyncJob_update_job.
    unfold bind at 1. unfold self_ at 1. simpl. rewrite Hjob, Hc.
    unfold bind at 1. unfold in_world, zoom, request. simpl.
    destruct (status_fetch remote (log w) run) as [msg|run']; [reflexivity|].
    unfold bind at 1. unfold assign at 1, modify. simpl. unfold bind.
    destruct (InsightAsyncJob_check_status remote _) as [[x|e|] s];
      reflexivity. }
  subst j'. clearbody result. subst result.
  destruct (status_fetch remote (log w) run) as [msg|run']; simpl.
  { split; reflexivity. }
  rewrite (check_status_observes remote (set_job (Some run') j) (sent ev w)
             run' eq_refl Hst).
  destruct (info_enabled remote); [repeat split|].
  unfold is_terminal, InsightAsyncJob_completed, InsightAsyncJob_failed.
  destruct (status_is (async_status run') COMPLETED) eqn:H1; simpl.
  - assert (H2 : is_failure (async_status run') = false).
    { unfold is_failure, status_is in *.
      apply bool_decide_eq_true in H1. rewrite H1. reflexivity. }
    rewrite H2. repeat split. exact Hf.
  - destruct (is_failure (async_status run')) eqn:H2; simpl.
    + repeat split.
    + rewrite Hfin, Hf. repeat split. intros H; discriminate H.
Qed.

Lemma demo_running_job_invariant n : leaf_invariant (Demo.running_job n).
Proof. unfold leaf_invariant. simpl. repeat split; intros H; discriminate. Qed.

Lemma X8_update_job_immediate_witness :
  log (snd (snd (InsightAsyncJob_update_job Demo.remote 3%nat None
                   (Demo.running_job 3, Demo.world0))))
  = [StatusRequest "3"].
Proof.
  exact (proj1 (X8_update_job_immediate Demo.remote 3%nat
                  (Demo.running_job 3) Demo.world0 _
                  (demo_running_job_invariant 3) eq_refl eq_refl)).
Defined.

(** ** [_check_status] and the success handler *)

Lemma check_status_outcome remote j w run :
  _job j = Some run ->
  _start_time j <> None ->
  let status := async_status run in
  let result := InsightAsyncJob_check_status remote (j, w) in
  let j' := fst (snd result) in
  if info_enabled remote then result = (Raises (logger_error "job"), (j, w))
  else
    fst result = Returns (is_terminal status)
    /\ snd (snd result) = (if is_terminal status then tick w else w)
    /\ _job j' = Some run
    /\ _start_time j' = _start_time j
    /\ _finish_time j'
       = (if is_terminal status then Some (clock remote (ticks w))
          else _finish_time j)
    /\ _failed j' = _failed j || is_failure status.
Proof.
  intros Hjob Hst status result j'. subst j' result status.
  rewrite (check_status_observes remote j w run Hjob Hst).
  destruct (info_enabled remote); [reflexivity|].
  unfold is_terminal.
  destruct (status_is (async_status run) COMPLETED) eqn:H1; simpl.
  - assert (H2 : is_failure (async_status run) = false).
    { unfold is_failure, status_is in *.
      apply bool_decide_eq_true in H1. rewrite H1. reflexivity. }
    rewrite H2, orb_false_r. repeat split; assumption.
  - destruct (is_failure (async_status run)); simpl.
    + rewrite orb_true_r. repeat split; assumption.
    + rewrite orb_false_r. repeat split; assumption.
Qed.

(** X9: [_check_status] on a job that has a report run and a start time.
    With INFO enabled for the logger it raises the error of its first
    [logger.info] call and changes nothing.  With INFO not enabled it does
    not raise and sends nothing; it returns true exactly when the status of
    the report run is [Job Completed], [Job Failed] or [Job Skipped].  In
    that case it reads the clock once and the finish time becomes that
    instant, replacing any earlier one; otherwise the finish time stays.
    The failed flag is only ever set: it becomes true on [Job Failed] and
    [Job Skipped] and is not cleared by [Job Completed]. *)
Theorem X9_check_status_outcome remote j w run :
  _job j = Some run ->
  _start_time j <> None ->
  let status := async_status run in
  let result := InsightAsyncJob_check_status remote (j, w) in
  let j' := fst (snd result) in
  if info_enabled remote then result = (Raises (logger_error "job"), (j, w))
  else
    fst result = Returns (is_terminal status)
    /\ snd (snd result) = (if is_terminal status then tick w else w)
    /\ _job j' = Some run
    /\ _start_time j' = _start_time j
    /\ _finish_time j'
       = (if is_terminal status then Some (clock remote (ticks w))
          else _finish_time j)
    /\ _failed j' = _failed j || is_failure status.
Proof.
  intros Hjob Hst status result j'. subst j' result status.
  rewrite (check_status_observes remote j w run Hjob Hst).
  destruct (info_enabled remote); [reflexivity|].
  unfold is_terminal.
  destruct (status_is (async_status run) COMPLETED) eqn:H1; simpl.
  - assert (H2 : is_failure (async_status run) = false).
    { unfold is_failure, status_is in *.
      apply bool_decide_eq_true in H1. rewrite H1. reflexivity. }
    rewrite H2, orb_false_r. repeat split; assumption.
  - destruct (is_failure (async_status run)); simpl.
    + rewrite orb_true_r. repeat split; assumption.
    + rewrite orb_false_r. repeat split; assumption.
Qed.

Lemma X9_check_status_outcome_witness :
  _failed (fst (snd (InsightAsyncJob_check_status Demo.remote
                       (Demo.failed_job, Demo.world0))))
  = true.
Proof.
  pose proof (X9_check_status_outcome Demo.remote Demo.failed_job
                Demo.world0 _ eq_refl ltac:(discriminate))
    as (_ & _ & _ & _ & _ & H).
  exact H.
Defined.

(** X10: the success handler of a batch, on a job that has a report run
    and a start time, sends nothing, stores the answered report run in the
    job and then judges its status as [_check_status] does.  With INFO
    enabled for the logger it raises there and records nothing more; with
    INFO not enabled it returns, completes the job on a terminal status and
    marks it failed on [Job Failed] and [Job Skipped].  On a job without a
    report run it raises and changes nothing. *)
Theorem X10_batch_success_handler remote response j w :
  _start_time j <> None ->
  let status := async_status response in
  let result :=
    InsightAsyncJob_batch_success_handler remote response (j, w) in
  let j' := fst (snd result) in
  match _job j with
  | None => exists msg, result = (Raises (FacebookBadObjectError msg), (j, w))
  | Some _ =>
      log (snd (snd result)) = log w
      /\ _job j' = Some response
      /\ if info_enabled remote then
           result
           = (Raises (logger_error "job"), (set_job (Some response) j, w))
         else
           fst result = Returns tt
           /\ _finish_time j'
              = (if is_terminal status then Some (clock remote (ticks w))
                 else _finish_time j)
           /\ _failed j' = _failed j || is_failure status
  end.
Proof.
  intros Hst status result j'.
  destruct (_job j) as [run|] eqn:Hjob.
  - pose proof (check_status_outcome remote (set_job (Some response) j) w
                  response eq_refl Hst) as H.
    assert (Heq : result
                  = let '(o, s) :=
                      InsightAsyncJob_check_status remote
                        (set_job (Some response) j, w) in
                    (match o with
                     | Returns _ => Returns tt
                     | Raises e => Raises e
                     | Unfinished => Unfinished
                     end, s)).
    { subst result. unfold InsightAsyncJob_batch_success_handler.
      unfold bind at 1. unfold self_ at 1. simpl. rewrite Hjob.
      unfold bind at 1. unfold assign at 1, modify. simpl. unfold bind.
      destruct (InsightAsyncJob_check_status remote _) as [[b|e|] s];
        reflexivity. }
    subst j'. clearbody result. subst result.
    destruct (info_enabled remote).
    { rewrite H. repeat split. }
    destruct (InsightAsyncJob_check_status remote
                (set_job (Some response) j, w)) as [[b|e|] [j1 w1]];
      simpl in *; destruct H as (H0 & H1 & H2 & H3 & H4 & H5);
      try discriminate H0.
    fold status in H1, H4, H5.
    repeat split; try assumption.
    rewrite H1. destruct (is_terminal status); reflexivity.
  - subst result. unfold InsightAsyncJob_batch_success_handler.
    unfold bind at 1. unfold self_ at 1. simpl. rewrite Hjob.
    eexists. reflexivity.
Qed.

Lemma X10_batch_success_handler_witness :
  InsightAsyncJob_completed
    (fst (snd (InsightAsyncJob_batch_success_handler Demo.remote
                 (Demo.run 3 "Job Skipped")
                 (Demo.running_job 3, Demo.world0))))
  = true.
Proof.
  pose proof (X10_batch_success_handler Demo.remote (Demo.run 3 "Job Skipped")
                (Demo.running_job 3) Demo.world0 ltac:(discriminate))
    as (_ & _ & _ & H & _).
  unfold InsightAsyncJob_completed. rewrite H. reflexivity.
Defined.

(** ** Executing a batch *)

Lemma on_world {A : Type} self (m : JobM A) p :
  world (snd (on self m p)) = snd (snd (m (heap p self, world p))).
Proof. unfold on, zoom. destruct (m _) as [o [j w]]. reflexivity. Qed.

Lemma on_next_loc {A : Type} self (m : JobM A) p :
  next_loc (snd (on self m p)) = next_loc p.
Proof. unfold on, zoom. destruct (m _) as [o [j w]]. reflexivity. Qed.

Lemma on_heap_self {A : Type} self (m : JobM A) p :
  heap (snd (on self m p)) self = fst (snd (m (heap p self, world p))).
Proof.
  unfold on, zoom. destruct (m _) as [o [j w]]. simpl.
  apply fn_lookup_insert.
Qed.

Lemma on_heap_other {A : Type} self (m : JobM A) p l :
  l <> self -> heap (snd (on self m p)) l = heap p l.
Proof.
  intros Hne. unfold on, zoom. destruct (m _) as [o [j w]]. simpl.
  apply fn_lookup_insert_ne. congruence.
Qed.

Lemma on_outcome {A : Type} self (m : JobM A) p :
  fst (on self m p) = fst (m (heap p self, world p)).
Proof. unfold on, zoom. destruct (m _) as [o [j w]]. reflexivity. Qed.

Lemma check_status_log remote s :
  log (snd (snd (InsightAsyncJob_check_status remote s))) = log (snd s).
Proof.
  destruct s as [j w]. unfold InsightAsyncJob_check_status,
    InsightAsyncJob_elapsed_time. unfold_eff. simpl.
  destruct (_job j) as [run|]; [|reflexivity].
  destruct (info_enabled remote); [reflexivity|].
  destruct (status_is (async_status run) COMPLETED); [reflexivity|].
  destruct (status_is (async_status run) FAILED
            || status_is (async_status run) SKIPPED); [|reflexivity].
  simpl. destruct (_start_time j); reflexivity.
Qed.

Lemma batch_success_handler_log remote response s :
  log (snd (snd (InsightAsyncJob_batch_success_handler remote response s)))
  = log (snd s).
Proof.
  destruct s as [j w]. unfold InsightAsyncJob_batch_success_handler.
  unfold bind at 1. unfold self_ at 1. simpl.
  destruct (_job j); [|reflexivity].
  unfold bind at 1. unfold assign at 1, modify. simpl. unfold bind.
  pose proof (check_status_log remote (set_job (Some response) j, w)) as H.
  destruct (InsightAsyncJob_check_status remote _) as [[b|e|] s']; exact H.
Qed.

Lemma bind_run {S A B : Type} (m : Eff S A) (k : A -> Eff S B) (s : S) :
  bind m k s
  = match m s with
    | (Returns a, s') => k a s'
    | (Raises e, s') => (Raises e, s')
    | (Unfinished, s') => (Unfinished, s')
    end.
Proof. reflexivity. Qed.

Lemma for_each_singleton {S A B : Type} (body : A -> B -> Eff S B) x acc s :
  for_each body [x] acc s
  = match body x acc s with
    | (Returns a, s') => (Returns a, s')
    | (Raises e, s') => (Raises e, s')
    | (Unfinished, s') => (Unfinished, s')
    end.
Proof. reflexivity. Qed.

Lemma reply_step_run remote history ic retry p :
  reply_step remote history ic retry p
  = match batch_reply remote history (fst ic) (call_run (snd ic)) with
    | NoReply => (Returns (retry ++ [snd ic]), p)
    | SuccessReply body =>
        match on (call_self (snd ic))
                (InsightAsyncJob_batch_success_handler remote body) p with
        | (Returns _, p') => (Returns retry, p')
        | (Raises e, p') => (Raises e, p')
        | (Unfinished, p') => (Unfinished, p')
        end
    | FailureReply body =>
        (Returns retry,
         {| heap := <[call_self (snd ic) := heap p (call_self (snd ic))]>
                      (heap p);
            next_loc := next_loc p; world := world p |})
    end.
Proof.
  unfold reply_step.
  destruct (batch_reply remote history (fst ic) (call_run (snd ic)));
    reflexivity.
Qed.

(** The loop of [execute] over the replies. *)
Lemma execute_replies remote history ics acc p :
  let result := for_each (reply_step remote history) ics acc p in
  log (world (snd result)) = log (world p)
  /\ next_loc (snd result) = next_loc p
  /\ (forall l, l ∉ answered remote history ics ->
                heap (snd result) l = heap p l)
  /\ (forall r, fst result = Returns r ->
                r = acc ++ unanswered remote history ics).
Proof.
  revert acc p. induction ics as [|ic ics IH]; intros acc p; simpl.
  - unfold ret. simpl. repeat split. intros r [= <-].
    unfold unanswered. simpl. rewrite app_nil_r. reflexivity.
  - rewrite bind_run, reply_step_run. unfold answered, unanswered.
    rewrite !filter_cons.
    destruct (batch_reply remote history (fst ic) (call_run (snd ic)))
      as [|body|body] eqn:Hreply; simpl.
    + destruct (IH (acc ++ [snd ic]) p) as (H1 & H2 & H3 & H4).
      repeat split; try assumption.
      intros r Hr. rewrite (H4 r Hr), <- app_assoc. reflexivity.
    + pose proof (on_world (call_self (snd ic))
                    (InsightAsyncJob_batch_success_handler remote body) p)
        as Hw.
      pose proof (on_next_loc (call_self (snd ic))
                    (InsightAsyncJob_batch_success_handler remote body) p)
        as Hn.
      pose proof (fun l => on_heap_other (call_self (snd ic))
                    (InsightAsyncJob_batch_success_handler remote body) p l)
        as Hh.
      apply (f_equal log) in Hw.
      rewrite batch_success_handler_log in Hw. simpl in Hw.
      destruct (on (call_self (snd ic))
                  (InsightAsyncJob_batch_success_handler remote body) p)
        as [[u|e|] p1]; simpl in *.
      * destruct (IH acc p1) as (H1 & H2 & H3 & H4).
        split; [congruence|]. split; [congruence|]. split; [|exact H4].
        intros l Hl. apply not_elem_of_cons in Hl as [Hl1 Hl2].
        rewrite (H3 l Hl2). apply Hh. exact Hl1.
      * split; [congruence|]. split; [exact Hn|]. split; [|discriminate].
        intros l Hl. apply not_elem_of_cons in Hl as [Hl1 Hl2].
        apply Hh. exact Hl1.
      * split; [congruence|]. split; [exact Hn|]. split; [|discriminate].
        intros l Hl. apply not_elem_of_cons in Hl as [Hl1 Hl2].
        apply Hh. exact Hl1.
    + match goal with
      | |- context [for_each _ ics acc ?p1] =>
          destruct (IH acc p1) as (H1 & H2 & H3 & H4)
      end.
      simpl in *. repeat split; try assumption.
      intros l Hl. rewrite (H3 l Hl).
      destruct (decide (l = call_self (snd ic))) as [->|Hne].
      * apply fn_lookup_insert.
      * apply fn_lookup_insert_ne. congruence.
Qed.

Lemma execute_run remote batch p :
  FacebookAdsApiBatch_execute remote batch p
  = match batch_calls batch with
    | [] => (Returns None, p)
    | _ :: _ =>
        match for_each (reply_step remote (log (world p)))
                (indexed_calls (batch_calls batch)) []
                {| heap := heap p; next_loc := next_loc p;
                   world := sent (batch_request_of (batch_calls batch))
                                 (world p) |} with
        | (Returns [], p') => (Returns None, p')
        | (Returns (c :: retry), p') =>
            (Returns (Some {| batch_api := batch_api batch;
                              batch_calls := c :: retry |}), p')
        | (Raises e, p') => (Raises e, p')
        | (Unfinished, p') => (Unfinished, p')
        end
    end.
Proof.
  unfold FacebookAdsApiBatch_execute.
  destruct (batch_calls batch) as [|c calls] eqn:Hcalls; [reflexivity|].
  rewrite bind_run. unfold get at 1.
  rewrite bind_run. unfold in_program, zoom, request. cbv beta iota.
  rewrite bind_run.
  change (for_each _ (combine (seq 0 (length (c :: calls))) (c :: calls)) [])
    with (for_each (reply_step remote (log (world p)))
            (indexed_calls (c :: calls)) []).
  unfold batch_request_of, sent.
  destruct (for_each (reply_step remote (log (world p)))
              (indexed_calls (c :: calls)) [] _) as [[[|c' retry]|e|] p'];
    reflexivity.
Qed.

Lemma execute_facts remote batch p :
  let history := log (world p) in
  let ics := indexed_calls (batch_calls batch) in
  let result := FacebookAdsApiBatch_execute remote batch p in
  (forall r, fst result = Returns r -> r = retry_batch remote history batch)
  /\ log (world (snd result))
     = log (world p)
       ++ match batch_calls batch with
          | [] => []
          | _ :: _ => [batch_request_of (batch_calls batch)]
          end
  /\ (forall l, l ∉ answered remote history ics ->
                heap (snd result) l = heap p l)
  /\ next_loc (snd result) = next_loc p.
Proof.
  intros history ics result. subst result. rewrite execute_run.
  unfold retry_batch. fold ics. fold history.
  destruct (batch_calls batch) as [|c calls] eqn:Hcalls.
  { simpl. rewrite app_nil_r. repeat split. intros r [= <-].
    reflexivity. }
  match goal with
  | |- context [for_each _ ics [] ?p0] =>
      pose proof (execute_replies remote history ics [] p0) as Hfacts
  end.
  cbv zeta in Hfacts.
  destruct (for_each (reply_step remote history) ics [] _)
    as [[[|c' retry]|e|] p']; simpl in Hfacts;
    destruct Hfacts as (H1 & H2 & H3 & H4);
    (split; [intros r Hr; try discriminate Hr
            | split; [exact H1 | split; [exact H3 | exact H2]]]).
  - injection Hr as <-. rewrite <- (H4 [] eq_refl). reflexivity.
  - injection Hr as <-. rewrite <- (H4 _ eq_refl). reflexivity.
Qed.

(** When [execute] returns, it returns [None] exactly when the
    transport replied to every call, and otherwise a batch of the same api
    that holds exactly the calls left without a reply, in their order; so
    it never returns an empty batch.  It sends one batch request that lists
    the report runs of all calls in order, and nothing at all for a batch
    without calls. *)
Lemma execute_retries remote batch p :
  let history := log (world p) in
  let pending :=
    unanswered remote history (indexed_calls (batch_calls batch)) in
  let result := FacebookAdsApiBatch_execute remote batch p in
  (forall r, fst result = Returns r ->
     r = retry_batch remote history batch
     /\ (r = None <-> pending = [])
     /\ (r <> None -> batch_truthy r = true /\ owners r = map call_self pending))
  /\ log (world (snd result))
     = log (world p)
       ++ match batch_calls batch with
          | [] => []
          | _ :: _ => [batch_request_of (batch_calls batch)]
          end.
Proof.
  intros history pending result.
  destruct (execute_facts remote batch p) as (H1 & H2 & _).
  split; [|exact H2]. intros r Hr. rewrite (H1 r Hr).
  split; [reflexivity|].
  unfold retry_batch. fold history. fold pending.
  destruct pending as [|c retry]; simpl.
  - repeat split; congruence.
  - repeat split; congruence.
Qed.

(** X11: [execute] changes no job but those for whose call the transport
    gave a success reply: a failure reply and a missing reply leave the job
    of the call exactly as it was, whether or not a handler raises later in
    the same batch. *)
Theorem X11_execute_frame remote batch p l :
  l ∉ answered remote (log (world p)) (indexed_calls (batch_calls batch)) ->
  heap (snd (FacebookAdsApiBatch_execute remote batch p)) l = heap p l.
Proof.
  intros Hl. destruct (execute_facts remote batch p) as (_ & _ & H & _).
  apply H. exact Hl.
Qed.

Lemma X11_execute_frame_witness :
  let p := {| heap := Demo.running_job; next_loc := 51%nat;
              world := Demo.world0 |} in
  let batch :=
    batch_add (new_batch "api")
      {| call_run := Demo.run 3 "Job Running"; call_self := 3%nat |} in
  heap (snd (FacebookAdsApiBatch_execute Demo.remote batch p)) 4%nat
  = Demo.running_job 4.
Proof.
  intros p batch.
  apply (X11_execute_frame Demo.remote batch p 4%nat).
  simpl. intros H. apply list_elem_of_singleton in H. discriminate H.
Defined.

(** ** Draining a batch *)

Lemma indexed_calls_snd (calls : list BatchCall) ic :
  ic ∈ indexed_calls calls -> snd ic ∈ calls.
Proof.
  unfold indexed_calls. generalize 0%nat.
  induction calls as [|c calls IH]; intros n; simpl.
  - intros H. inversion H.
  - intros H. apply elem_of_cons in H as [->|H].
    + left.
    + right. eapply IH, H.
Qed.

Lemma answered_owners remote history calls l :
  l ∈ answered remote history (indexed_calls calls) ->
  l ∈ map call_self calls.
Proof.
  unfold answered. intros H.
  apply list_elem_of_fmap in H as (ic & -> & Hic).
  apply list_elem_of_filter in Hic as [_ Hic].
  apply list_elem_of_fmap. exists (snd ic). split; [reflexivity|].
  apply indexed_calls_snd, Hic.
Qed.

Lemma unanswered_owners remote history calls l :
  l ∈ map call_self (unanswered remote history (indexed_calls calls)) ->
  l ∈ map call_self calls.
Proof.
  unfold unanswered. intros H.
  apply list_elem_of_fmap in H as (c & -> & Hc).
  apply list_elem_of_fmap in Hc as (ic & -> & Hic).
  apply list_elem_of_filter in Hic as [_ Hic].
  apply list_elem_of_fmap. exists (snd ic). split; [reflexivity|].
  apply indexed_calls_snd, Hic.
Qed.

Lemma retry_batch_owners remote history batch l :
  l ∈ owners (retry_batch remote history batch) ->
  l ∈ map call_self (batch_calls batch).
Proof.
  unfold retry_batch.
  destruct (unanswered remote history (indexed_calls (batch_calls batch)))
    as [|c retry] eqn:Hun; simpl.
  - intros H. inversion H.
  - intros H. apply (unanswered_owners remote history). rewrite Hun. exact H.
Qed.

Lemma while_batch_facts remote rounds batch p :
  let result := while_batch remote rounds batch p in
  (exists evs, log (world (snd result)) = log (world p) ++ evs
               /\ Forall batch_request_event evs)
  /\ (forall l, l ∉ owners batch -> heap (snd result) l = heap p l)
  /\ next_loc (snd result) = next_loc p.
Proof.
  revert batch p. induction rounds as [|rounds IH]; intros batch p.
  - destruct batch as [b|]; simpl.
    + destruct (batch_calls b); simpl;
        (split; [exists []; rewrite app_nil_r; split; [reflexivity|constructor]
                | split; reflexivity]).
    + split; [exists []; rewrite app_nil_r; split; [reflexivity|constructor]
             | split; reflexivity].
  - destruct batch as [b|]; simpl.
    + destruct (batch_calls b) as [|c calls] eqn:Hcalls; simpl.
      { split; [exists []; rewrite app_nil_r; split; [reflexivity|constructor]
               | split; reflexivity]. }
      rewrite bind_run.
      destruct (execute_facts remote b p) as (H1 & H2 & H3 & H4).
      rewrite Hcalls in H2.
      assert (Hev : Forall batch_request_event [batch_request_of (c :: calls)]).
      { constructor; [eexists; reflexivity | constructor]. }
      assert (Hframe : forall l, l ∉ map call_self (c :: calls) ->
                 heap (snd (FacebookAdsApiBatch_execute remote b p)) l
                 = heap p l).
      { intros l Hl. apply H3. intros Hin. apply Hl.
        apply (answered_owners remote (log (world p))) in Hin.
        rewrite Hcalls in Hin. exact Hin. }
      destruct (FacebookAdsApiBatch_execute remote b p) as [[b1|e|] p1];
        simpl in *.
      * destruct (IH b1 p1) as ((evs & Hlog & Hevs) & Hheap & Hnext).
        split; [|split].
        -- exists (batch_request_of (c :: calls) :: evs). split.
           ++ rewrite Hlog, H2, <- app_assoc. reflexivity.
           ++ constructor; [eexists; reflexivity | exact Hevs].
        -- intros l Hl. rewrite Hheap; [apply Hframe, Hl|].
           intros Hin. apply Hl. rewrite (H1 b1 eq_refl) in Hin.
           apply retry_batch_owners in Hin.
           rewrite Hcalls in Hin. exact Hin.
        -- congruence.
      * split; [eexists; split; [exact H2 | exact Hev]|].
        split; [exact Hframe | exact H4].
      * split; [eexists; split; [exact H2 | exact Hev]|].
        split; [exact Hframe | exact H4].
    + split; [exists []; rewrite app_nil_r; split; [reflexivity|constructor]
             | split; reflexivity].
Qed.

(** X12: however it ends, the loop [while batch: batch = batch.execute()]
    sends batch requests only and changes no job other than those whose
    handlers the batch held at the start; when it returns, the variable
    [batch] is falsy, so no call is left to retry. *)
Theorem X12_while_batch remote rounds batch p :
  let result := while_batch remote rounds batch p in
  (exists evs, log (world (snd result)) = log (world p) ++ evs
               /\ Forall batch_request_event evs)
  /\ (forall l, l ∉ owners batch -> heap (snd result) l = heap p l)
  /\ (forall batch', fst result = Returns batch' ->
                     batch_truthy batch' = false).
Proof.
  intros result.
  destruct (while_batch_facts remote rounds batch p) as (H1 & H2 & _).
  split; [exact H1|]. split; [exact H2|].
  intros batch' Hr. subst result.
  destruct (while_batch remote rounds batch p) as [o p'] eqn:Hrun.
  simpl in Hr. subst o. eapply while_batch_drained, Hrun.
Qed.

(** ** [update_job] of a group *)

Lemma update_job_parent remote rounds api interval attempt jobs batch p :
  update_job remote rounds (Parent api interval attempt jobs) batch p
  = match ParentAsyncJob_update_job remote rounds api
            (map (fun job => (job, update_job remote rounds job)) jobs)
            batch p with
    | (Returns _, p') => (Returns batch, p')
    | (Raises e, p') => (Raises e, p')
    | (Unfinished, p') => (Unfinished, p')
    end.
Proof. reflexivity. Qed.

Lemma ParentAsyncJob_update_job_run remote rounds api jobs batch p :
  ParentAsyncJob_update_job remote rounds api jobs batch p
  = match
      for_each
        (fun jobs batch =>
           let* batch :=
             for_each (fun (job : Bound) batch => snd job batch) jobs batch in
           while_batch remote rounds batch)
        (chunks_list
           (filter (fun job => completed (heap p) (fst job) = false) jobs)
           chunk_size)
        (Some (new_batch api)) p with
    | (Returns _, p') => (Returns tt, p')
    | (Raises e, p') => (Raises e, p')
    | (Unfinished, p') => (Unfinished, p')
    end.
Proof. reflexivity. Qed.

Lemma filter_completed_children remote rounds h jobs :
  forallb (completed h) jobs = true ->
  filter (fun job => completed h (fst job) = false)
    (map (fun job => (job, update_job remote rounds job)) jobs)
  = [].
Proof.
  induction jobs as [|job jobs IH]; simpl; [reflexivity|].
  intros H. apply andb_true_iff in H as [H1 H2].
  rewrite filter_cons. simpl. rewrite H1.
  destruct (decide (true = false)) as [Hd|_]; [discriminate Hd|].
  apply IH, H2.
Qed.

(** X13: [update_job] on a group all of whose children are completed, and
    so on a group without children, does nothing: it sends no request,
    executes no batch, leaves the program as it was and returns. *)
Theorem X13_update_job_completed_group remote rounds api interval attempt
    jobs batch p :
  completed (heap p) (Parent api interval attempt jobs) = true ->
  update_job remote rounds (Parent api interval attempt jobs) batch p
  = (Returns batch, p).
Proof.
  intros Hc. simpl in Hc.
  rewrite update_job_parent, ParentAsyncJob_update_job_run.
  match goal with
  | |- context [chunks_list ?x _] =>
      assert (Hnone : x = [])
        by (exact (filter_completed_children remote rounds (heap p) jobs Hc));
      rewrite Hnone
  end.
  reflexivity.
Qed.

Lemma X13_update_job_completed_group_witness :
  update_job Demo.remote 0 (Parent "api" Demo.week 1 []) None
    Demo51.program
  = (Returns None, Demo51.program).
Proof.
  exact (X13_update_job_completed_group Demo.remote 0 "api" Demo.week 1 []
           None Demo51.program eq_refl).
Defined.

Lemma filter_bound_leaves remote rounds h ls :
  filter (fun job => completed h (fst job) = false)
    (bound_leaves remote rounds ls)
  = bound_leaves remote rounds (unfinished_leaves h ls).
Proof.
  unfold bound_leaves, unfinished_leaves.
  induction ls as [|l ls IH]; [reflexivity|].
  cbn in *.
  destruct (decide (InsightAsyncJob_completed (h l) = false)).
  - cbn. f_equal. exact IH.
  - exact IH.
Qed.

(** Enqueueing the status checks of leaf jobs into a batch. *)
Lemma enqueue_leaves remote rounds ls b p :
  let result :=
    for_each (fun (job : Bound) batch => snd job batch)
      (bound_leaves remote rounds ls) (Some b) p in
  world (snd result) = world p
  /\ next_loc (snd result) = next_loc p
  /\ (forall l, heap (snd result) l = heap p l)
  /\ (forall r, fst result = Returns r ->
        forall l, l ∈ owners r -> l ∈ owners (Some b) \/ l ∈ ls).
Proof.
  revert b p. induction ls as [|l ls IH]; intros b p.
  - simpl. repeat split. intros r [= <-] l Hl. left. exact Hl.
  - unfold bound_leaves. simpl for_each. fold (bound_leaves remote rounds ls).
    rewrite bind_run.
    pose proof (update_job_with_batch remote l b (heap p l) (world p))
      as [Hstate Hout].
    pose proof (on_world l (InsightAsyncJob_update_job remote l (Some b)) p)
      as Hw.
    pose proof (on_next_loc l (InsightAsyncJob_update_job remote l (Some b)) p)
      as Hn.
    pose proof (on_heap_self l (InsightAsyncJob_update_job remote l (Some b)) p)
      as Hs.
    pose proof (fun l' => on_heap_other l
                  (InsightAsyncJob_update_job remote l (Some b)) p l') as Ho.
    pose proof (on_outcome l (InsightAsyncJob_update_job remote l (Some b)) p)
      as Hr.
    rewrite Hstate in Hw, Hs. simpl in Hw, Hs.
    assert (Hheap : forall l',
               heap (snd (on l (InsightAsyncJob_update_job remote l (Some b))
                            p)) l' = heap p l').
    { intros l'. destruct (decide (l' = l)) as [->|Hne];
        [exact Hs | apply Ho, Hne]. }
    clear Hs Ho.
    destruct (on l (InsightAsyncJob_update_job remote l (Some b)) p)
      as [[r1|e|] p1]; cbn [fst snd] in *.
    + destruct (_job (heap p l)) as [run|].
      * rewrite Hout in Hr.
        assert (Hr1 : r1 = Some (if InsightAsyncJob_completed (heap p l) then b
                                 else batch_add b {| call_run := run;
                                                     call_self := l |})).
        { destruct (InsightAsyncJob_completed (heap p l));
            [destruct (info_enabled remote); [discriminate Hr|]|];
            injection Hr as ->; reflexivity. }
        subst r1. clear Hr.
        match goal with
        | |- context [for_each _ _ (Some ?b1) p1] =>
            destruct (IH b1 p1) as (H1 & H2 & H3 & H4)
        end.
        split; [etransitivity; [exact H1 | exact Hw]|].
        split; [etransitivity; [exact H2 | exact Hn]|].
        split; [intros l'; etransitivity; [apply H3 | apply Hheap]|].
        intros r Hret l' Hl'. destruct (H4 r Hret l' Hl') as [Hin|Hin].
        -- destruct (InsightAsyncJob_completed (heap p l)); simpl in Hin.
           ++ left. exact Hin.
           ++ rewrite map_app in Hin. apply elem_of_app in Hin as [Hin|Hin].
              ** left. exact Hin.
              ** right. apply list_elem_of_singleton in Hin. subst l'. left.
        -- right. right. exact Hin.
      * exfalso. apply (Hout r1). symmetry. exact Hr.
    + repeat split; try assumption. intros r [=].
    + repeat split; try assumption. intros r [=].
Qed.

(** X14: [update_job] on a group of leaf jobs of which at most 50 are not
    completed sends batch requests only, never an immediate status
    request, and leaves every job that was completed at the call, and every
    job outside the group, exactly as it was. *)
Theorem X14_update_job_single_chunk remote rounds api interval attempt ls
    batch p :
  (length (unfinished_leaves (heap p) ls) <= chunk_size)%nat ->
  let result :=
    update_job remote rounds (Parent api interval attempt (map Insight ls))
      batch p in
  (exists evs, log (world (snd result)) = log (world p) ++ evs
               /\ Forall batch_request_event evs)
  /\ (forall l, l ∉ unfinished_leaves (heap p) ls ->
                heap (snd result) l = heap p l).
Proof.
  intros Hlen result. subst result.
  rewrite update_job_parent, ParentAsyncJob_update_job_run.
  rewrite map_map.
  change (map (fun x => (Insight x, update_job remote rounds (Insight x))) ls)
    with (bound_leaves remote rounds ls).
  match goal with
  | |- context [chunks_list ?x _] =>
      assert (Hsome : x = bound_leaves remote rounds
                            (unfinished_leaves (heap p) ls))
        by (exact (filter_bound_leaves remote rounds (heap p) ls));
      rewrite Hsome; clear Hsome
  end.
  set (todo := unfinished_leaves (heap p) ls) in *.
  assert (Hnone : exists evs : list Event,
             log (world p) = log (world p) ++ evs
             /\ Forall batch_request_event evs).
  { exists []. rewrite app_nil_r. split; [reflexivity | constructor]. }
  rewrite chunks_short
    by (unfold bound_leaves; rewrite length_map; exact Hlen).
  destruct todo as [|l0 todo'] eqn:Htodo.
  { simpl. split; [exact Hnone | reflexivity]. }
  rewrite <- Htodo. clear Hnone.
  assert (Hb : bound_leaves remote rounds todo
               = (Insight l0, update_job remote rounds (Insight l0))
                 :: bound_leaves remote rounds todo')
    by (rewrite Htodo; reflexivity).
  rewrite Hb. rewrite <- Hb. clear Hb.
  rewrite for_each_singleton, bind_run.
  destruct (enqueue_leaves remote rounds todo (new_batch api) p)
    as (Hw & Hn & Hh & Ho).
  destruct (for_each (fun (job : Bound) batch => snd job batch)
              (bound_leaves remote rounds todo) (Some (new_batch api)) p)
    as [[b1|e|] p1]; simpl in Hw, Hn, Hh, Ho.
  - destruct (while_batch_facts remote rounds b1 p1)
      as ((evs & Hlog & Hevs) & Hframe & _).
    assert (Hgoal :
      (exists evs0, log (world (snd (while_batch remote rounds b1 p1)))
                    = log (world p) ++ evs0
                    /\ Forall batch_request_event evs0)
      /\ (forall l, l ∉ todo ->
            heap (snd (while_batch remote rounds b1 p1)) l = heap p l)).
    { split.
      - exists evs. rewrite Hlog, Hw. split; [reflexivity | exact Hevs].
      - intros l Hl. rewrite Hframe; [apply Hh|].
        intros Hin. destruct (Ho b1 eq_refl l Hin) as [H|H].
        + inversion H.
        + apply Hl, H. }
    destruct (while_batch remote rounds b1 p1) as [[b2|e|] p2];
      simpl in *; exact Hgoal.
  - simpl. split.
    + exists []. rewrite app_nil_r, Hw. split; [reflexivity | constructor].
    + intros l _. apply Hh.
  - simpl. split.
    + exists []. rewrite app_nil_r, Hw. split; [reflexivity | constructor].
    + intros l _. apply Hh.
Qed.

Lemma X14_update_job_single_chunk_witness :
  exists evs,
    log (world (snd (update_job Demo.remote 1
                       (Parent "api" Demo.week 1 (map Insight [0; 1; 2]%nat))
                       None Demo51.program)))
    = log (world Demo51.program) ++ evs
    /\ Forall batch_request_event evs.
Proof.
  exact (proj1 (X14_update_job_single_chunk Demo.remote 1 "api" Demo.week 1
                  [0; 1; 2]%nat None Demo51.program
                  ltac:(vm_compute; lia))).
Defined.

(** ** [get_result] of a group *)

Lemma get_result_parent remote api interval attempt jobs :
  get_result remote (Parent api interval attempt jobs)
  = foldr (fun job rest => first_then (get_result remote job) rest)
          no_rows jobs.
Proof. reflexivity. Qed.

Lemma first_then_foldr remote jobs (k : Rows) p :
  foldr (fun job rest => first_then (get_result remote job) rest) k jobs p
  = first_then
      (foldr (fun job rest => first_then (get_result remote job) rest)
             no_rows jobs)
      k p.
Proof.
  revert p. induction jobs as [|job jobs IH]; intros p; simpl.
  - unfold first_then, no_rows. destruct (k p) as [[rows o] p'].
    reflexivity.
  - unfold first_then at 1 3 4.
    destruct (get_result remote job p) as [[rows [u|e|]] p1];
      [|reflexivity|reflexivity].
    rewrite IH. unfold first_then.
    destruct (foldr _ no_rows jobs p1) as [[rows1 [u1|e1|]] p2];
      [|reflexivity|reflexivity].
    destruct (k p2) as [[rows2 o2] p3]. rewrite app_assoc. reflexivity.
Qed.

(** X15: the rows of a group over the children [jobs1 ++ jobs2] are the
    rows of the group over [jobs1] followed by the rows of the group over
    [jobs2], read in the state the first part leaves; the second part is
    not asked at all when the first ends with an exception. *)
Theorem X15_get_result_append remote api interval attempt jobs1 jobs2 p :
  get_result remote (Parent api interval attempt (jobs1 ++ jobs2)) p
  = first_then (get_result remote (Parent api interval attempt jobs1))
               (get_result remote (Parent api interval attempt jobs2)) p.
Proof.
  rewrite !get_result_parent, foldr_app. apply first_then_foldr.
Qed.

Lemma get_result_leaf remote j w :
  fst (snd (InsightAsyncJob_get_result remote (j, w))) = j
  /\ (_job j = None \/ _failed j = true ->
      forall rows, fst (InsightAsyncJob_get_result remote (j, w))
                   <> Returns rows).
Proof.
  unfold InsightAsyncJob_get_result. unfold_eff. simpl.
  unfold InsightAsyncJob_failed.
  destruct (_job j) as [run|]; simpl.
  - destruct (_failed j); simpl.
    + destruct (InsightAsyncJob_str j); simpl;
        (split; [reflexivity | intros _ rows; discriminate]).
    + destruct (result_fetch remote (log w) run page_size); simpl;
        (split; [reflexivity | intros [H|H]; discriminate H]).
  - destruct (InsightAsyncJob_str j); simpl;
      (split; [reflexivity | intros _ rows; discriminate]).
Qed.

(** X16: while one of the leaf jobs of a group was never started or is
    failed, [get_result] of the group does not come to its end: it ends
    with an exception, at that child at the latest. *)
Theorem X16_get_result_needs_all remote api interval attempt ls p :
  Exists (fun l => _job (heap p l) = None \/ _failed (heap p l) = true) ls ->
  snd (fst (get_result remote (Parent api interval attempt (map Insight ls))
              p))
  <> Returns tt.
Proof.
  rewrite get_result_parent. revert p.
  induction ls as [|l ls IH]; intros p Hbad.
  - inversion Hbad.
  - simpl. unfold first_then at 1.
    pose proof (on_outcome l (InsightAsyncJob_get_result remote) p) as Ho.
    pose proof (on_heap_self l (InsightAsyncJob_get_result remote) p) as Hs.
    pose proof (fun l' => on_heap_other l (InsightAsyncJob_get_result remote)
                  p l') as Hother.
    destruct (get_result_leaf remote (heap p l) (world p)) as [Hj Hraise].
    rewrite Hj in Hs.
    destruct (on l (InsightAsyncJob_get_result remote) p) as [[rows|e|] p1];
      simpl in *; [|discriminate|discriminate].
    assert (Hheap : forall l', heap p1 l' = heap p l').
    { intros l'. destruct (decide (l' = l)) as [->|Hne];
        [exact Hs | apply Hother, Hne]. }
    assert (Hbad' : Exists (fun l => _job (heap p1 l) = None
                                     \/ _failed (heap p1 l) = true) ls).
    { inversion Hbad as [? ? Hl|? ? Hls]; subst.
      - exfalso. apply (Hraise Hl rows). symmetry. exact Ho.
      - eapply Exists_impl; [|exact Hls]. intros l'. simpl.
        rewrite Hheap. tauto. }
    specialize (IH p1 Hbad').
    destruct (foldr _ no_rows (map Insight ls) p1) as [[rows' o'] p2].
    simpl in *. exact IH.
Qed.

Lemma X16_get_result_needs_all_witness :
  snd (fst (get_result Demo.remote
              (Parent "api" Demo.week 1 (map Insight [0; 7]%nat))
              {| heap := fun l => if Nat.eqb l 7 then Demo.failed_job
                                  else Demo.running_job l;
                 next_loc := 8%nat; world := Demo.world0 |}))
  <> Returns tt.
Proof.
  apply X16_get_result_needs_all.
  right. left. right. reflexivity.
Defined.

(** ** [start] and [restart] of a group *)

Lemma start_leaf_facts remote j w :
  let result := InsightAsyncJob_start remote (j, w) in
  let j' := fst (snd result) in
  _params j' = _params j /\ _edge_object j' = _edge_object j
  /\ _failed j' = _failed j
  /\ (job_truthy j = true -> j' = j /\ fst result <> Returns tt)
  /\ (fst result = Returns tt ->
      job_truthy j' = true
      /\ log (snd (snd result)) = log w ++ [start_request j]).
Proof.
  unfold InsightAsyncJob_start, start_request. unfold_eff. simpl.
  unfold job_truthy. destruct (_job j) as [run|]; simpl.
  - destruct (InsightAsyncJob_str j); simpl;
      repeat split; discriminate.
  - destruct (insights_async remote (log w) (_edge_object j) (_params j));
      simpl; [repeat split; discriminate|].
    unfold param_of. simpl.
    destruct (_params j !! "time_range"); simpl;
      [destruct (_params j !! "breakdowns"); simpl;
       [destruct (info_enabled remote); simpl|]|];
      repeat split; discriminate.
Qed.

Lemma start_parent remote api interval attempt jobs :
  start remote (Parent api interval attempt jobs)
  = for_each (fun start_job (_ : unit) => start_job)
      (map (start remote) jobs) tt.
Proof. reflexivity. Qed.

Lemma start_leaves_facts remote ls p :
  let result :=
    for_each (fun start_job (_ : unit) => start_job)
      (map (start remote) (map Insight ls)) tt p in
  (forall l, l ∉ ls -> heap (snd result) l = heap p l)
  /\ (fst result = Returns tt ->
      NoDup ls
      /\ Forall (fun l => job_truthy (heap p l) = false) ls
      /\ Forall (fun l => job_truthy (heap (snd result) l) = true) ls
      /\ log (world (snd result))
         = log (world p) ++ map (fun l => start_request (heap p l)) ls).
Proof.
  revert p. induction ls as [|l ls IH]; intros p.
  - simpl. split; [reflexivity|]. intros _.
    rewrite app_nil_r. repeat constructor.
  - simpl map. simpl for_each. rewrite bind_run.
    pose proof (on_outcome l (InsightAsyncJob_start remote) p) as Ho.
    pose proof (on_heap_self l (InsightAsyncJob_start remote) p) as Hs.
    pose proof (on_world l (InsightAsyncJob_start remote) p) as Hw.
    pose proof (fun l' => on_heap_other l (InsightAsyncJob_start remote) p l')
      as Hother.
    destruct (start_leaf_facts remote (heap p l) (world p))
      as (Hpar & Hedge & _ & Hstarted & Hret).
    destruct (on l (InsightAsyncJob_start remote) p) as [[[]|e|] p1];
      cbn [fst snd] in *.
    + destruct (IH p1) as [Hframe Hrest].
      split.
      * intros l' Hl'. apply not_elem_of_cons in Hl' as [Hne Hl'].
        rewrite (Hframe l' Hl'). apply Hother, Hne.
      * intros Hreturns.
        destruct (Hrest Hreturns) as (Hnd & Hbefore & Hafter & Hlog).
        destruct (Hret (eq_sym Ho)) as [Hnow Hlog1].
        assert (Hnotin : l ∉ ls).
        { intros Hin. rewrite Forall_forall in Hbefore.
          apply list_elem_of_In in Hin. specialize (Hbefore l Hin).
          rewrite Hs, Hnow in Hbefore. discriminate Hbefore. }
        assert (Hunstarted : job_truthy (heap p l) = false).
        { destruct (job_truthy (heap p l)) eqn:Ht; [|reflexivity].
          exfalso. destruct (Hstarted eq_refl) as [_ Hno].
          apply Hno. symmetry. exact Ho. }
        assert (Hsame : forall l', l' ∈ ls -> heap p1 l' = heap p l').
        { intros l' Hin. apply Hother. intros ->. exact (Hnotin Hin). }
        split; [constructor; assumption|].
        split.
        { constructor; [exact Hunstarted|].
          rewrite Forall_forall in *. intros l' Hin.
          rewrite <- (Hsame l') by (apply list_elem_of_In, Hin).
          apply Hbefore, Hin. }
        split.
        { constructor; [|exact Hafter].
          rewrite (Hframe l Hnotin), Hs. exact Hnow. }
        rewrite Hlog, Hw, Hlog1, <- app_assoc. simpl. do 2 f_equal.
        apply map_ext_in. intros l' Hin.
        rewrite Hsame by (apply list_elem_of_In, Hin). reflexivity.
    + split; [|discriminate].
      intros l' Hl'. apply not_elem_of_cons in Hl' as [Hne _].
      apply Hother, Hne.
    + split; [|discriminate].
      intros l' Hl'. apply not_elem_of_cons in Hl' as [Hne _].
      apply Hother, Hne.
Qed.

(** X17: when [start] of a group of leaf jobs returns, the children were
    pairwise distinct and none of them had been started; afterwards every
    child is started, exactly one asynchronous insights request was sent
    per child, in the order of the children and with the edge object and
    parameters of each, and no job outside the group has changed.  A group
    holding a started child, or the same child twice, therefore does not
    return from [start]. *)
Theorem X17_start_group remote api interval attempt ls p :
  let result := start remote (Parent api interval attempt (map Insight ls)) p in
  fst result = Returns tt ->
  NoDup ls
  /\ Forall (fun l => job_truthy (heap p l) = false) ls
  /\ Forall (fun l => job_truthy (heap (snd result) l) = true) ls
  /\ log (world (snd result))
     = log (world p) ++ map (fun l => start_request (heap p l)) ls
  /\ (forall l, l ∉ ls -> heap (snd result) l = heap p l).
Proof.
  intros result Hret. subst result. rewrite start_parent in *.
  destruct (start_leaves_facts remote ls p) as [Hframe Hrest].
  destruct (Hrest Hret) as (H1 & H2 & H3 & H4).
  repeat split; assumption.
Qed.

Lemma X17_start_group_witness :
  log (world (snd (start Demo.remote
                     (Parent "api" Demo.week 1 (map Insight [0; 1]%nat))
                     {| heap := fun _ => Demo.fresh_job; next_loc := 2%nat;
                        world := Demo.world0 |})))
  = [start_request Demo.fresh_job; start_request Demo.fresh_job].
Proof.
  exact (proj1 (proj2 (proj2 (proj2
           (X17_start_group Demo.remote "api" Demo.week 1 [0; 1]%nat
              {| heap := fun _ => Demo.fresh_job; next_loc := 2%nat;
                 world := Demo.world0 |} eq_refl))))).
Defined.

Lemma restart_run remote j w :
  InsightAsyncJob_restart remote (j, w)
  = if negb (job_truthy j) || negb (InsightAsyncJob_failed j) then
      usage_error
        ": Incorrect usage of restart - only failed jobs can be restarted"
        (j, w)
    else InsightAsyncJob_start remote (restart_fields j, w).
Proof.
  unfold InsightAsyncJob_restart. unfold bind at 1. unfold self_ at 1.
  simpl. destruct (negb (job_truthy j) || negb (InsightAsyncJob_failed j));
    reflexivity.
Qed.

Lemma restart_leaf_facts remote j w :
  fst (InsightAsyncJob_restart remote (j, w)) = Returns tt ->
  _failed (fst (snd (InsightAsyncJob_restart remote (j, w)))) = false.
Proof.
  rewrite restart_run.
  destruct (negb (job_truthy j) || negb (InsightAsyncJob_failed j)).
  - unfold_eff. simpl. destruct (InsightAsyncJob_str j); discriminate.
  - intros _.
    destruct (start_leaf_facts remote (restart_fields j) w) as (_ & _ & H & _).
    rewrite H. reflexivity.
Qed.

Lemma restart_leaf remote l p :
  restart remote (Insight l) p
  = (fst (on l (InsightAsyncJob_restart remote) p),
     (Insight l, snd (on l (InsightAsyncJob_restart remote) p))).
Proof.
  simpl. destruct (on l (InsightAsyncJob_restart remote) p). reflexivity.
Qed.

Lemma restart_parent remote api interval attempt jobs p :
  restart remote (Parent api interval attempt jobs) p
  = let '(o, (jobs', attempt', p')) :=
      ParentAsyncJob_restart
        (map (fun job => (job, restart remote job)) jobs) attempt p in
    (o, (Parent api interval attempt' jobs', p')).
Proof. reflexivity. Qed.

Lemma ParentAsyncJob_restart_cons job (r : Restart) jobs attempt p :
  ParentAsyncJob_restart ((job, r) :: jobs) attempt p
  = let '(o, (job', p')) :=
      if failed (heap p) job then r p else (Returns tt, (job, p)) in
    match o with
    | Returns _ =>
        let '(o', (jobs'', attempt', p'')) :=
          ParentAsyncJob_restart jobs
            (Z.max attempt (attempt_number (heap p') job')) p' in
        (o', (job' :: jobs'', attempt', p''))
    | _ => (o, (job' :: map fst jobs, attempt, p'))
    end.
Proof. reflexivity. Qed.

Lemma restart_leaves_fst remote ls :
  map fst (restart_leaves remote ls) = map Insight ls.
Proof. unfold restart_leaves. rewrite map_map. reflexivity. Qed.

Lemma restart_leaves_facts remote ls attempt p :
  let result := ParentAsyncJob_restart (restart_leaves remote ls)
                  attempt p in
  let jobs' := fst (fst (snd result)) in
  let attempt' := snd (fst (snd result)) in
  let p' := snd (snd result) in
  jobs' = map Insight ls
  /\ attempt <= attempt'
  /\ (forall l, _failed (heap p l) = false -> heap p' l = heap p l)
  /\ (forall l, l ∉ ls -> heap p' l = heap p l)
  /\ (fst result = Returns tt ->
      Forall (fun l => _failed (heap p' l) = false
                       /\ _attempt_number (heap p' l) <= attempt') ls
      /\ (attempt' = attempt
          \/ Exists (fun l => attempt' = _attempt_number (heap p' l)) ls)).
Proof.
  revert attempt p. induction ls as [|l ls IH]; intros attempt p.
  - simpl. repeat split; try reflexivity; try lia. constructor.
  - change (restart_leaves remote (l :: ls))
      with ((Insight l, restart remote (Insight l))
            :: restart_leaves remote ls).
    rewrite ParentAsyncJob_restart_cons.
    change (failed (heap p) (Insight l))
      with (InsightAsyncJob_failed (heap p l)).
    destruct (InsightAsyncJob_failed (heap p l)) eqn:Hfailed.
    + (* the child is failed: it is restarted *)
      rewrite restart_leaf.
      pose proof (on_outcome l (InsightAsyncJob_restart remote) p) as Ho.
      pose proof (on_heap_self l (InsightAsyncJob_restart remote) p) as Hs.
      pose proof (fun l' => on_heap_other l (InsightAsyncJob_restart remote)
                    p l') as Hother.
      pose proof (restart_leaf_facts remote (heap p l) (world p)) as Hnf.
      destruct (on l (InsightAsyncJob_restart remote) p) as [[[]|e|] p1];
        cbn [fst snd] in *; cbv beta iota zeta.
      * specialize (IH (Z.max attempt (attempt_number (heap p1) (Insight l)))
                       p1).
        destruct (ParentAsyncJob_restart (restart_leaves remote ls)
                    (Z.max attempt (attempt_number (heap p1) (Insight l))) p1)
          as [o [[jobs2 attempt2] p2]].
        cbn [fst snd attempt_number] in *.
        destruct IH as (H1 & H2 & H3 & H4 & H5).
        assert (Hl : _failed (heap p1 l) = false)
          by (rewrite Hs; apply Hnf; symmetry; exact Ho).
        split; [rewrite H1; reflexivity|]. split; [lia|].
        split.
        { intros l' Hl'. assert (Hne : l' <> l).
          { intros ->. unfold InsightAsyncJob_failed in Hfailed.
            congruence. }
          rewrite H3; [apply Hother, Hne|].
          rewrite (Hother l' Hne). exact Hl'. }
        split.
        { intros l' Hl'. apply not_elem_of_cons in Hl' as [Hne Hl'].
          rewrite (H4 l' Hl'). apply Hother, Hne. }
        intros Hret. destruct (H5 Hret) as [Hall Hmax].
        split.
        { constructor; [|exact Hall].
          rewrite (H3 l Hl). split; [exact Hl | lia]. }
        destruct Hmax as [Hmax|Hmax].
        -- destruct (Z.max_spec attempt (_attempt_number (heap p1 l)))
             as [[_ Hm]|[_ Hm]].
           ++ right. left. rewrite (H3 l Hl). lia.
           ++ left. lia.
        -- right. right. exact Hmax.
      * cbn [fst snd].
        split; [rewrite restart_leaves_fst; reflexivity|]. split; [lia|].
        split.
        { intros l' Hl'. apply Hother. intros ->.
          unfold InsightAsyncJob_failed in Hfailed. congruence. }
        split; [|discriminate].
        intros l' Hl'. apply not_elem_of_cons in Hl' as [Hne _].
        apply Hother, Hne.
      * cbn [fst snd].
        split; [rewrite restart_leaves_fst; reflexivity|]. split; [lia|].
        split.
        { intros l' Hl'. apply Hother. intros ->.
          unfold InsightAsyncJob_failed in Hfailed. congruence. }
        split; [|discriminate].
        intros l' Hl'. apply not_elem_of_cons in Hl' as [Hne _].
        apply Hother, Hne.
    + (* the child is not failed: it is passed over *)
      cbv beta iota zeta.
      specialize (IH (Z.max attempt (attempt_number (heap p) (Insight l))) p).
      destruct (ParentAsyncJob_restart (restart_leaves remote ls)
                  (Z.max attempt (attempt_number (heap p) (Insight l))) p)
        as [o [[jobs2 attempt2] p2]].
      cbn [fst snd attempt_number] in *.
      destruct IH as (H1 & H2 & H3 & H4 & H5).
      split; [rewrite H1; reflexivity|]. split; [lia|].
      split; [exact H3|].
      split.
      { intros l' Hl'. apply not_elem_of_cons in Hl' as [_ Hl'].
        apply H4, Hl'. }
      intros Hret. destruct (H5 Hret) as [Hall Hmax].
      split.
      { constructor; [|exact Hall].
        rewrite (H3 l Hfailed). split; [exact Hfailed | lia]. }
      destruct Hmax as [Hmax|Hmax].
      * destruct (Z.max_spec attempt (_attempt_number (heap p l)))
          as [[_ Hm]|[_ Hm]].
        -- right. left. rewrite (H3 l Hfailed). lia.
        -- left. lia.
      * right. right. exact Hmax.
Qed.

Lemma restart_group_run remote api interval attempt ls p :
  restart remote (Parent api interval attempt (map Insight ls)) p
  = let result := ParentAsyncJob_restart (restart_leaves remote ls)
                    attempt p in
    (fst result,
     (Parent api interval (snd (fst (snd result))) (fst (fst (snd result))),
      snd (snd result))).
Proof.
  rewrite restart_parent, map_map.
  change (map (fun x => (Insight x, restart remote (Insight x))) ls)
    with (restart_leaves remote ls).
  cbv zeta.
  destruct (ParentAsyncJob_restart (restart_leaves remote ls) attempt p)
    as [o [[jobs' attempt'] p']].
  reflexivity.
Qed.

(** X18: [restart] of a group of leaf jobs restarts failed children only:
    a job that was not failed at the call, and any job outside the group,
    is exactly as it was afterwards, whether the call returns or raises.
    The group keeps its api, its interval and its children, and its
    attempt number does not decrease. *)
Theorem X18_restart_group_frame remote api interval attempt ls p l :
  _failed (heap p l) = false \/ l ∉ ls ->
  let result :=
    restart remote (Parent api interval attempt (map Insight ls)) p in
  heap (snd (snd result)) l = heap p l
  /\ exists attempt',
       fst (snd result) = Parent api interval attempt' (map Insight ls)
       /\ attempt <= attempt'.
Proof.
  intros Hl result. subst result. rewrite restart_group_run.
  destruct (restart_leaves_facts remote ls attempt p)
    as (H1 & H2 & H3 & H4 & _).
  cbv zeta. cbn [fst snd]. split.
  - destruct Hl as [Hl|Hl]; [apply H3, Hl | apply H4, Hl].
  - eexists. split; [rewrite H1; reflexivity | exact H2].
Qed.

Lemma X18_restart_group_frame_witness :
  heap (snd (snd (restart Demo.remote
                    (Parent "api" Demo.week 1 (map Insight [3; 7]%nat))
                    demo_program_failed_at_7))) 3%nat
  = Demo.running_job 3.
Proof.
  exact (proj1 (X18_restart_group_frame Demo.remote "api" Demo.week 1
                  [3; 7]%nat demo_program_failed_at_7 3%nat
                  (or_introl eq_refl))).
Defined.

(** X19: when [restart] of a group of leaf jobs returns, no child is
    failed any more, and the attempt number of the group is the largest of
    its old value and the attempt numbers of its children: it is at least
    each of them and equal to one of them. *)
Theorem X19_restart_group_attempt remote api interval attempt ls p :
  let result :=
    restart remote (Parent api interval attempt (map Insight ls)) p in
  let group' := fst (snd result) in
  let h' := heap (snd (snd result)) in
  fst result = Returns tt ->
  failed h' group' = false
  /\ attempt <= attempt_number h' group'
  /\ Forall (fun l => _attempt_number (h' l) <= attempt_number h' group') ls
  /\ (attempt_number h' group' = attempt
      \/ Exists (fun l => attempt_number h' group' = _attempt_number (h' l))
           ls).
Proof.
  intros result group' h'. subst h' group' result.
  rewrite restart_group_run. cbv zeta. cbn [fst snd].
  destruct (restart_leaves_facts remote ls attempt p)
    as (H1 & H2 & _ & _ & H5).
  intros Hret. destruct (H5 Hret) as [Hall Hmax].
  cbn [attempt_number]. rewrite H1.
  split; [|split; [exact H2 | split; [|exact Hmax]]].
  - simpl. apply not_true_is_false. intros Hex.
    apply existsb_true_Exists in Hex. apply Exists_exists in Hex.
    destruct Hex as (job & Hin & Hf).
    apply in_map_iff in Hin as (l & <- & Hin).
    rewrite Forall_forall in Hall. destruct (Hall l Hin) as [Hnf _].
    simpl in Hf. unfold InsightAsyncJob_failed in Hf. congruence.
  - eapply Forall_impl; [|exact Hall]. intros l [_ H]. exact H.
Qed.

Lemma X19_restart_group_attempt_witness :
  attempt_number
    (heap (snd (snd (restart Demo.remote
                       (Parent "api" Demo.week 1 (map Insight [3; 7]%nat))
                       demo_program_failed_at_7))))
    (fst (snd (restart Demo.remote
                 (Parent "api" Demo.week 1 (map Insight [3; 7]%nat))
                 demo_program_failed_at_7)))
  >= 1.
Proof.
  pose proof (X19_restart_group_attempt Demo.remote "api" Demo.week 1
                [3; 7]%nat demo_program_failed_at_7 eq_refl)
    as (_ & H & _).
  lia.
Defined.

(** ** [split_job] *)

(** X20: the parameters of the campaign query exist exactly when the job
    has a [time_range] dictionary and a [time_increment].  They then ask
    for the field [campaign_id] at the level [campaign], carry no
    [time_increment], keep the [until] of the job and move [since] back to
    29 days before the start of the interval; every other parameter is the
    one of the job, whose own parameters are not changed. *)
Theorem X20_campaign_params j :
  match campaign_params_of j with
  | inr cp =>
      cp !! "time_increment" = None
      /\ cp !! "level" = Some (PStr "campaign")
      /\ cp !! "fields" = Some (PList ["campaign_id"])
      /\ (exists time_range,
            _params j !! "time_range" = Some (PDict time_range)
            /\ cp !! "time_range"
               = Some (PDict (<["since" :=
                                  to_date_string
                                    (p_start (_interval j) - 29)]>
                                time_range)))
      /\ is_Some (_params j !! "time_increment")
      /\ (forall k, k <> "time_increment" -> k <> "level" -> k <> "fields" ->
                    k <> "time_range" -> cp !! k = _params j !! k)
  | inl e =>
      match _params j !! "time_range" with
      | None => e = KeyError "time_range"
      | Some (PDict _) =>
          e = KeyError "time_increment"
          /\ _params j !! "time_increment" = None
      | Some _ => exists msg, e = AttributeError msg
      end
  end.
Proof.
  unfold campaign_params_of.
  rewrite !lookup_insert_ne by discriminate.
  destruct (_params j !! "time_range") as [[s|n|l|tr]|] eqn:Htr;
    try (eexists; reflexivity); try reflexivity.
  rewrite lookup_insert_ne by discriminate.
  rewrite !lookup_insert_ne by discriminate.
  destruct (_params j !! "time_increment") as [v|] eqn:Hti.
  - split; [apply lookup_delete_eq|].
    rewrite !lookup_delete_ne by discriminate.
    rewrite lookup_insert_eq.
    rewrite lookup_insert_ne by discriminate. rewrite lookup_insert_eq.
    rewrite lookup_insert_ne by discriminate.
    rewrite lookup_insert_ne by discriminate. rewrite lookup_insert_eq.
    split; [reflexivity|]. split; [reflexivity|].
    split; [exists tr; split; reflexivity|].
    split; [eexists; reflexivity|].
    intros k H1 H2 H3 H4.
    rewrite lookup_delete_ne by congruence.
    rewrite !lookup_insert_ne by congruence. reflexivity.
  - split; reflexivity.
Qed.

Lemma campaign_ids_of_spec result :
  match campaign_ids_of result with
  | inr ids =>
      forall pk, pk ∈ ids
                 <-> exists row, row ∈ result
                                 /\ row !! "campaign_id" = Some pk
  | inl e =>
      e = KeyError "campaign_id"
      /\ exists row, row ∈ result /\ row !! "campaign_id" = None
  end.
Proof.
  induction result as [|row result IH]; simpl.
  - intros pk. split.
    + intros H. exfalso. exact (not_elem_of_empty _ H).
    + intros (row & H & _). inversion H.
  - destruct (row !! "campaign_id") as [pk0|] eqn:Hrow.
    + destruct (campaign_ids_of result) as [e|ids].
      * destruct IH as [-> (row' & Hin & Hnone)].
        split; [reflexivity|]. exists row'. split; [right; exact Hin|exact Hnone].
      * intros pk. rewrite elem_of_union, elem_of_singleton, IH. split.
        -- intros [->|(row' & Hin & Hpk)].
           ++ exists row. split; [left | exact Hrow].
           ++ exists row'. split; [right; exact Hin | exact Hpk].
        -- intros (row' & Hin & Hpk).
           apply elem_of_cons in Hin as [->|Hin].
           ++ left. congruence.
           ++ right. exists row'. split; assumption.
    + split; [reflexivity|]. exists row. split; [left | exact Hrow].
Qed.

(** X21: the set of campaign ids read from the rows of the campaign query
    holds exactly the [campaign_id] values that occur in the rows, each
    once however many rows carry it; reading fails, with
    [KeyError('campaign_id')], exactly when some row has no
    [campaign_id]. *)
Theorem X21_campaign_ids result :
  match campaign_ids_of result with
  | inr ids =>
      (forall pk, pk ∈ ids
                  <-> exists row, row ∈ result
                                  /\ row !! "campaign_id" = Some pk)
      /\ Forall (fun row => is_Some (row !! "campaign_id")) result
  | inl e =>
      e = KeyError "campaign_id"
      /\ exists row, row ∈ result /\ row !! "campaign_id" = None
  end.
Proof.
  pose proof (campaign_ids_of_spec result) as H.
  destruct (campaign_ids_of result) as [e|ids] eqn:Hids; [exact H|].
  split; [exact H|]. clear H. revert ids Hids.
  induction result as [|row result IH]; intros ids Hids; [constructor|].
  simpl in Hids. destruct (row !! "campaign_id") as [pk|] eqn:Hrow;
    [|discriminate Hids].
  destruct (campaign_ids_of result) as [e|ids']; [discriminate Hids|].
  constructor; [rewrite Hrow; eexists; reflexivity|].
  eapply IH. reflexivity.
Qed.

Lemma split_job_run remote self p :
  let j := heap p self in
  InsightAsyncJob_split_job remote self p
  = match campaign_params_of j with
    | inl e => (Raises e, p)
    | inr cp =>
        let p0 := {| heap := heap p; next_loc := next_loc p;
                     world := sent (InsightsRequest (_edge_object j) cp)
                                   (world p) |} in
        match insights remote (log (world p)) (_edge_object j) cp with
        | inl msg => (Raises (FacebookRequestError msg), p0)
        | inr result =>
            match campaign_ids_of result with
            | inl e => (Raises e, p0)
            | inr ids =>
                if info_enabled remote then (Raises (logger_error "num"), p0)
                else
                  match elements ids with
                  | [] => (Returns (Parent (_api j) (_interval j) 1 []), p0)
                  | _ :: _ =>
                      (Raises
                         (TypeError
                            "__init__() missing 1 required positional argument: 'interval'"),
                       p0)
                  end
            end
        end
    end.
Proof.
  intros j. unfold InsightAsyncJob_split_job.
  rewrite bind_run. unfold get at 1. cbv beta iota. fold j.
  rewrite bind_run.
  destruct (campaign_params_of j) as [e|cp] eqn:Hcp; [reflexivity|].
  unfold lift_sum at 1, ret at 1. cbv beta iota.
  rewrite bind_run. unfold in_program, zoom, request. cbv beta iota.
  destruct (insights remote (log (world p)) (_edge_object j) cp)
    as [msg|result]; [reflexivity|].
  rewrite bind_run.
  destruct (campaign_ids_of result) as [e|ids]; [reflexivity|].
  unfold lift_sum at 1, ret at 1. cbv beta iota.
  destruct (campaign_params_time_range j cp Hcp) as [v Hv].
  rewrite bind_run, Hv. unfold lift_sum at 1, ret at 1. cbv beta iota.
  rewrite bind_run. unfold logger_info_keywords.
  destruct (info_enabled remote); [reflexivity|].
  unfold ret at 1. cbv beta iota. rewrite bind_run.
  destruct (elements ids) as [|pk pks]; reflexivity.
Qed.

(** X22: [split_job] of a leaf job changes no job, creates no job and does
    not read the clock, however it ends.  When the parameters of the
    campaign query cannot be built it raises that error and sends nothing;
    otherwise it sends exactly one request, the campaign query.  It raises
    the request error when the remote refuses the query and the
    [KeyError] when a row has no [campaign_id].  A group it returns has
    the key and the interval of the job and is at attempt 1.  [split_job]
    of a group always raises and changes nothing. *)
Theorem X22_split_job_edges remote self p :
  let j := heap p self in
  let result := split_job remote (Insight self) p in
  let p' := snd result in
  heap p' = heap p /\ next_loc p' = next_loc p
  /\ ticks (world p') = ticks (world p)
  /\ match campaign_params_of j with
     | inl e => result = (Raises e, p)
     | inr cp =>
         log (world p')
         = log (world p) ++ [InsightsRequest (_edge_object j) cp]
         /\ match insights remote (log (world p)) (_edge_object j) cp with
            | inl msg => fst result = Raises (FacebookRequestError msg)
            | inr rows =>
                match campaign_ids_of rows with
                | inl e => fst result = Raises e
                | inr _ => True
                end
            end
     end
  /\ (forall group, fst result = Returns group ->
        key (heap p') group = key (heap p) (Insight self)
        /\ attempt_number (heap p') group = 1
        /\ exists jobs, group = Parent (_api j) (_interval j) 1 jobs)
  /\ (forall api interval attempt jobs,
        exists msg,
          split_job remote (Parent api interval attempt jobs) p
          = (Raises (RuntimeError msg), p)).
Proof.
  intros j result p'. subst p' result. simpl split_job.
  pose proof (split_job_run remote self p) as Hrun. cbv zeta in Hrun.
  fold j in Hrun. rewrite Hrun. clear Hrun.
  destruct (campaign_params_of j) as [e|cp].
  { repeat split; try discriminate.
    intros api interval attempt jobs. eexists. reflexivity. }
  destruct (insights remote (log (world p)) (_edge_object j) cp)
    as [msg|rows].
  { repeat split; try discriminate.
    intros api interval attempt jobs. eexists. reflexivity. }
  destruct (campaign_ids_of rows) as [e|ids].
  { repeat split; try discriminate.
    intros api interval attempt jobs. eexists. reflexivity. }
  destruct (info_enabled remote).
  { repeat split; try discriminate.
    intros api interval attempt jobs. eexists. reflexivity. }
  destruct (elements ids) as [|pk pks].
  - repeat split.
    + injection H as <-. reflexivity.
    + injection H as <-. reflexivity.
    + injection H as <-. eexists. reflexivity.
    + intros api interval attempt jobs. eexists. reflexivity.
  - repeat split; try discriminate.
    intros api interval attempt jobs. eexists. reflexivity.
Qed.

(** ** Printing a job *)

(** X23: a job as the constructor builds it always has its [time_range],
    so [__str__] on it, and on the job after any sequence of [start],
    [restart] and [update_job] calls, succeeds exactly when the caller's
    parameters held [breakdowns], and otherwise raises
    [KeyError('breakdowns')]. *)
Theorem X23_printable edge_object params kwargs j j' :
  InsightAsyncJob_init edge_object params kwargs = inr j ->
  _params j' = _params j ->
  match params !! "breakdowns" with
  | Some _ => exists s, InsightAsyncJob_str j' = inr s
  | None => InsightAsyncJob_str j' = inl (KeyError "breakdowns")
  end.
Proof.
  intros Hinit Hsame.
  pose proof (init_params edge_object params kwargs) as H.
  rewrite Hinit in H. destruct H as [Htr Hother].
  unfold InsightAsyncJob_str. rewrite Hsame, Htr.
  rewrite (Hother "breakdowns") by discriminate.
  destruct (params !! "breakdowns"); [eexists|]; reflexivity.
Qed.

Lemma X23_printable_witness :
  InsightAsyncJob_str
    (fst (snd (InsightAsyncJob_start Demo.remote
                 (Demo.bare_job, Demo.world0))))
  = inl (KeyError "breakdowns").
Proof.
  exact (X23_printable (AdAccount "act_1") ∅
           {| kw_api := Some "api"; kw_interval := Some Demo.week;
       kw_others := [] |}
           Demo.bare_job
           (fst (snd (InsightAsyncJob_start Demo.remote
                        (Demo.bare_job, Demo.world0))))
           eq_refl eq_refl).
Defined.

(** ** A group with a child that was never started *)

Lemma enqueue_unstarted remote rounds ls b p :
  Exists (fun l => _job (heap p l) = None) ls ->
  forall r,
    fst (for_each (fun (job : Bound) batch => snd job batch)
           (bound_leaves remote rounds ls) (Some b) p)
    <> Returns r.
Proof.
  revert b p. induction ls as [|l ls IH]; intros b p Hbad r.
  - inversion Hbad.
  - change (bound_leaves remote rounds (l :: ls))
      with ((Insight l, update_job remote rounds (Insight l))
            :: bound_leaves remote rounds ls).
    simpl for_each. rewrite bind_run.
    pose proof (update_job_with_batch remote l b (heap p l) (world p))
      as [Hstate Hout].
    pose proof (on_heap_self l (InsightAsyncJob_update_job remote l (Some b)) p)
      as Hs.
    pose proof (fun l' => on_heap_other l
                  (InsightAsyncJob_update_job remote l (Some b)) p l') as Ho.
    pose proof (on_outcome l (InsightAsyncJob_update_job remote l (Some b)) p)
      as Hr.
    rewrite Hstate in Hs. simpl in Hs.
    assert (Hheap : forall l',
               heap (snd (on l (InsightAsyncJob_update_job remote l (Some b))
                            p)) l' = heap p l').
    { intros l'. destruct (decide (l' = l)) as [->|Hne];
        [exact Hs | apply Ho, Hne]. }
    clear Hs Ho.
    destruct (on l (InsightAsyncJob_update_job remote l (Some b)) p)
      as [[r1|e|] p1]; cbn [fst snd] in *; [|discriminate|discriminate].
    destruct (_job (heap p l)) as [run|] eqn:Hjob.
    + rewrite Hout in Hr.
      assert (Hr1 : exists b1, r1 = Some b1).
      { destruct (InsightAsyncJob_completed (heap p l));
          [destruct (info_enabled remote); [discriminate Hr|]|];
          injection Hr as ->; eexists; reflexivity. }
      destruct Hr1 as [b1 ->]. clear Hr.
      apply IH. inversion Hbad as [? ? Hl|? ? Hls]; subst.
      * congruence.
      * eapply Exists_impl; [|exact Hls]. intros l'. simpl.
        rewrite Hheap. tauto.
    + exfalso. apply (Hout r1). symmetry. exact Hr.
Qed.

Lemma chunks_head {A : Type} (data : list A) (n : nat) :
  (0 < n)%nat -> data <> [] ->
  exists rest, chunks_list data n = take n data :: rest.
Proof.
  intros Hn Hne. rewrite chunks_by_index.
  destruct (chunk_count_bounds (length data) n Hn) as [Hup _].
  destruct ((length data + n - 1) / n)%nat as [|count] eqn:Hc.
  - exfalso. destruct data; [congruence | simpl in Hup; lia].
  - simpl. eexists. reflexivity.
Qed.

(** X24: when one of the first 50 unfinished children of a group of leaf
    jobs has no report run, [update_job] of the group raises while it
    fills the batch: no request is sent, no batch is executed and no job
    is changed. *)
Theorem X24_update_job_unstarted_child remote rounds api interval attempt ls
    batch p :
  Exists (fun l => _job (heap p l) = None)
         (take chunk_size (unfinished_leaves (heap p) ls)) ->
  let result :=
    update_job remote rounds (Parent api interval attempt (map Insight ls))
      batch p in
  (forall r, fst result <> Returns r)
  /\ world (snd result) = world p
  /\ (forall l, heap (snd result) l = heap p l).
Proof.
  intros Hbad result. subst result.
  rewrite update_job_parent, ParentAsyncJob_update_job_run.
  rewrite map_map.
  change (map (fun x => (Insight x, update_job remote rounds (Insight x))) ls)
    with (bound_leaves remote rounds ls).
  match goal with
  | |- context [chunks_list ?x _] =>
      assert (Hsome : x = bound_leaves remote rounds
                            (unfinished_leaves (heap p) ls))
        by (exact (filter_bound_leaves remote rounds (heap p) ls));
      rewrite Hsome; clear Hsome
  end.
  set (todo := unfinished_leaves (heap p) ls) in *.
  assert (Hne : bound_leaves remote rounds todo <> []).
  { destruct todo; [|discriminate]. simpl in Hbad. inversion Hbad. }
  destruct (chunks_head (bound_leaves remote rounds todo) chunk_size
              ltac:(unfold chunk_size; lia) Hne) as [rest Hchunks].
  rewrite Hchunks.
  assert (Htake : take chunk_size (bound_leaves remote rounds todo)
                  = bound_leaves remote rounds (take chunk_size todo)).
  { unfold bound_leaves. apply firstn_map. }
  rewrite Htake. simpl for_each. rewrite !bind_run.
  pose proof (enqueue_unstarted remote rounds (take chunk_size todo)
                (new_batch api) p Hbad) as Hraise.
  destruct (enqueue_leaves remote rounds (take chunk_size todo)
              (new_batch api) p) as (Hw & _ & Hh & _).
  destruct (for_each (fun (job : Bound) batch => snd job batch)
              (bound_leaves remote rounds (take chunk_size todo))
              (Some (new_batch api)) p) as [[b1|e|] p1];
    cbn [fst snd] in *.
  - exfalso. exact (Hraise b1 eq_refl).
  - repeat split; try assumption; try discriminate.
  - repeat split; try assumption; try discriminate.
Qed.

Lemma X24_update_job_unstarted_child_witness :
  world (snd (update_job Demo.remote 1
                (Parent "api" Demo.week 1 (map Insight [0; 1]%nat)) None
                {| heap := fun l => if Nat.eqb l 1 then Demo.fresh_job
                                    else Demo.running_job l;
                   next_loc := 2%nat; world := Demo.world0 |}))
  = Demo.world0.
Proof.
  refine (proj1 (proj2 (X24_update_job_unstarted_child Demo.remote 1 "api"
                          Demo.week 1 [0; 1]%nat None
                          {| heap := fun l => if Nat.eqb l 1
                                              then Demo.fresh_job
                                              else Demo.running_job l;
                             next_loc := 2%nat; world := Demo.world0 |} _))).
  right. left. reflexivity.
Defined.

(** ** What [update_job] of a group never touches *)

Lemma update_job_without_batch remote self j w r :
  fst (InsightAsyncJob_update_job remote self None (j, w)) = Returns r ->
  r = None.
Proof.
  unfold InsightAsyncJob_update_job. rewrite bind_run.
  unfold self_ at 1. cbv beta iota. simpl fst.
  destruct (_job j) as [run|].
  - destruct (InsightAsyncJob_completed j).
    + unfold_eff. destruct (info_enabled remote); [discriminate|].
      intros [= <-]. reflexivity.
    + rewrite bind_run. unfold in_world, zoom, request. cbv beta iota.
      simpl snd. simpl fst.
      destruct (status_fetch remote (log w) run); [discriminate|].
      rewrite bind_run. unfold assign at 1, modify. cbv beta iota.
      rewrite bind_run.
      destruct (InsightAsyncJob_check_status remote _) as [[x|e|] s];
        [|discriminate|discriminate].
      intros [= <-]. reflexivity.
  - unfold_eff. simpl. destruct (InsightAsyncJob_str j); discriminate.
Qed.

Lemma update_leaves_frame remote rounds ls batch p :
  let result :=
    for_each (fun (job : Bound) batch => snd job batch)
      (bound_leaves remote rounds ls) batch p in
  (forall l, l ∉ ls -> heap (snd result) l = heap p l)
  /\ (forall r, fst result = Returns r ->
        forall l, l ∈ owners r -> l ∈ owners batch \/ l ∈ ls).
Proof.
  revert batch p. induction ls as [|l ls IH]; intros batch p.
  - simpl. split; [reflexivity|]. intros r [= <-] l Hl. left. exact Hl.
  - change (bound_leaves remote rounds (l :: ls))
      with ((Insight l, update_job remote rounds (Insight l))
            :: bound_leaves remote rounds ls).
    simpl for_each. rewrite bind_run.
    pose proof (fun l' => on_heap_other l
                  (InsightAsyncJob_update_job remote l batch) p l') as Ho.
    pose proof (on_outcome l (InsightAsyncJob_update_job remote l batch) p)
      as Hr.
    assert (Hown : forall r1,
               fst (on l (InsightAsyncJob_update_job remote l batch) p)
               = Returns r1 ->
               forall l', l' ∈ owners r1 -> l' ∈ owners batch \/ l' = l).
    { intros r1 Hret l' Hl'. rewrite Hr in Hret.
      destruct batch as [b|].
      - pose proof (update_job_with_batch remote l b (heap p l) (world p))
          as [_ Hout].
        destruct (_job (heap p l)) as [run|].
        + rewrite Hout in Hret.
          destruct (InsightAsyncJob_completed (heap p l)).
          * destruct (info_enabled remote); [discriminate Hret|].
            injection Hret as <-. left. exact Hl'.
          * injection Hret as <-. simpl in Hl'. rewrite map_app in Hl'. apply elem_of_app in Hl' as [Hl'|Hl'].
            -- left. exact Hl'.
            -- right. apply list_elem_of_singleton in Hl'. exact Hl'.
        + exfalso. exact (Hout r1 Hret).
      - apply update_job_without_batch in Hret. subst r1. inversion Hl'. }
    clear Hr.
    destruct (on l (InsightAsyncJob_update_job remote l batch) p)
      as [[r1|e|] p1]; cbn [fst snd] in *.
    + destruct (IH r1 p1) as [Hframe Hrest]. split.
      * intros l' Hl'. apply not_elem_of_cons in Hl' as [Hne Hl'].
        rewrite (Hframe l' Hl'). apply Ho, Hne.
      * intros r Hret l' Hl'.
        destruct (Hrest r Hret l' Hl') as [Hin|Hin].
        -- destruct (Hown r1 eq_refl l' Hin) as [H | ->];
             [left; exact H | right; left].
        -- right. right. exact Hin.
    + split; [|discriminate].
      intros l' Hl'. apply not_elem_of_cons in Hl' as [Hne _].
      apply Ho, Hne.
    + split; [|discriminate].
      intros l' Hl'. apply not_elem_of_cons in Hl' as [Hne _].
      apply Ho, Hne.
Qed.

Lemma batch_falsy_owners batch :
  batch_truthy batch = false -> owners batch = [].
Proof.
  destruct batch as [b|]; simpl; [|reflexivity].
  destruct (batch_calls b); [reflexivity | discriminate].
Qed.

Lemma update_chunks_frame remote rounds groups batch p :
  owners batch = [] ->
  let result :=
    for_each
      (fun jobs batch =>
         let* batch :=
           for_each (fun (job : Bound) batch => snd job batch) jobs batch in
         while_batch remote rounds batch)
      (map (bound_leaves remote rounds) groups) batch p in
  forall l, l ∉ concat groups -> heap (snd result) l = heap p l.
Proof.
  revert batch p. induction groups as [|ls groups IH]; intros batch p Hown.
  - simpl. reflexivity.
  - simpl map. simpl for_each. rewrite !bind_run.
    destruct (update_leaves_frame remote rounds ls batch p)
      as [Hframe Howners].
    destruct (for_each (fun (job : Bound) batch => snd job batch)
                (bound_leaves remote rounds ls) batch p) as [[b1|e|] p1];
      cbn [fst snd] in *.
    + destruct (while_batch_facts remote rounds b1 p1) as (_ & Hwframe & _).
      pose proof (while_batch_drained remote rounds b1 p1) as Hdrained.
      destruct (while_batch remote rounds b1 p1) as [[b2|e|] p2];
        cbn [fst snd] in *.
      * intros l Hl. simpl in Hl. apply not_elem_of_app in Hl as [Hl1 Hl2].
        rewrite (IH b2 p2); [| apply batch_falsy_owners;
                                eapply Hdrained; reflexivity | exact Hl2].
        rewrite Hwframe; [apply Hframe, Hl1|].
        intros Hin. destruct (Howners b1 eq_refl l Hin) as [H|H].
        -- rewrite Hown in H. inversion H.
        -- exact (Hl1 H).
      * intros l Hl. simpl in Hl. apply not_elem_of_app in Hl as [Hl1 _].
        rewrite Hwframe; [apply Hframe, Hl1|].
        intros Hin. destruct (Howners b1 eq_refl l Hin) as [H|H].
        -- rewrite Hown in H. inversion H.
        -- exact (Hl1 H).
      * intros l Hl. simpl in Hl. apply not_elem_of_app in Hl as [Hl1 _].
        rewrite Hwframe; [apply Hframe, Hl1|].
        intros Hin. destruct (Howners b1 eq_refl l Hin) as [H|H].
        -- rewrite Hown in H. inversion H.
        -- exact (Hl1 H).
    + intros l Hl. simpl in Hl. apply not_elem_of_app in Hl as [Hl1 _].
      apply Hframe, Hl1.
    + intros l Hl. simpl in Hl. apply not_elem_of_app in Hl as [Hl1 _].
      apply Hframe, Hl1.
Qed.

Lemma chunks_map {A B : Type} (f : A -> B) (data : list A) (n : nat) :
  chunks_list (map f data) n = map (map f) (chunks_list data n).
Proof.
  rewrite !chunks_by_index, length_map, map_map.
  apply map_ext. intros k. rewrite <- firstn_map, <- skipn_map. reflexivity.
Qed.

(** X25: however many children a group of leaf jobs has, and however the
    call ends, [update_job] of the group changes no job that was completed
    at the call and no job outside the group. *)
Theorem X25_update_job_group_frame remote rounds api interval attempt ls
    batch p l :
  l ∉ unfinished_leaves (heap p) ls ->
  heap (snd (update_job remote rounds
               (Parent api interval attempt (map Insight ls)) batch p)) l
  = heap p l.
Proof.
  intros Hl.
  rewrite update_job_parent, ParentAsyncJob_update_job_run.
  rewrite map_map.
  change (map (fun x => (Insight x, update_job remote rounds (Insight x))) ls)
    with (bound_leaves remote rounds ls).
  match goal with
  | |- context [chunks_list ?x _] =>
      assert (Hsome : x = bound_leaves remote rounds
                            (unfinished_leaves (heap p) ls))
        by (exact (filter_bound_leaves remote rounds (heap p) ls));
      rewrite Hsome; clear Hsome
  end.
  unfold bound_leaves at 1. rewrite chunks_map.
  change (map (map (fun l0 => (Insight l0,
                               update_job remote rounds (Insight l0)))))
    with (map (bound_leaves remote rounds)).
  pose proof (update_chunks_frame remote rounds
                (chunks_list (unfinished_leaves (heap p) ls) chunk_size)
                (Some (new_batch api)) p eq_refl) as Hframe.
  cbv zeta in Hframe.
  rewrite chunks_concat in Hframe by (unfold chunk_size; lia).
  specialize (Hframe l Hl).
  destruct (for_each _ (map (bound_leaves remote rounds) _)
              (Some (new_batch api)) p) as [[b1|e|] p1];
    cbn [fst snd] in *; exact Hframe.
Qed.

Lemma X25_update_job_group_frame_witness :
  heap (snd (update_job Demo.remote 1 Demo51.group None Demo51.program))
       60%nat
  = Demo.running_job 60.
Proof.
  apply (X25_update_job_group_frame Demo.remote 1 "api" Demo.week 1
           (seq 0 51) None Demo51.program 60%nat).
  vm_compute. intros H. 
  repeat (apply elem_of_cons in H as [H|H]; [discriminate H|]).
  inversion H.
Defined.
